(** * The authenticated HTTP client of the frontend (lib/axios.ts)

    A shallow embedding of the token store, the request interceptor and the
    response interceptor that refreshes the access token, with the
    properties of the token-refresh pipeline proved about it; then the
    newsfeed service that calls the client, its hooks, and the state logic
    of the newsfeed and chat pages. *)

From stdpp Require Import base option numbers list strings gmap.
From stdpp Require Import pretty.
From Stdlib Require Import Ascii.

Open Scope string_scope.
Open Scope list_scope.

(** ** Values of the program *)

(** A JavaScript [string | null] tested by [if (token)] or [!token]: null and
    the empty string are falsy.  [truthy] gives the string when the test
    passes. *)
Definition truthy (token : option string) : option string :=
  match token with
  | Some (String a s) => Some (String a s)
  | _ => None
  end.

(** A template literal [`${x}`] of a [string | null]. *)
Definition template (x : option string) : string :=
  match x with
  | Some s => s
  | None => "null"
  end.

(** [InternalAxiosRequestConfig & { _retry?: boolean }].  [headers] is an
    option because the code tests [config.headers] before writing to it; an
    undefined [_retry] reads as [false]; [others] holds every field the
    file never names (method, data, params, ...). *)
Record Config := mkConfig {
  url : option string;
  headers : option (gmap string string);
  _retry : bool;
  others : gmap string string;
}.

(** [config.headers.Authorization = value], done under [if (config.headers)]. *)
Definition set_Authorization (value : string) (config : Config) : Config :=
  match headers config with
  | Some h =>
      mkConfig (url config) (Some (<["Authorization" := value]> h))
               (_retry config) (others config)
  | None => config
  end.

(** [config._retry = b]. *)
Definition set_retry (b : bool) (config : Config) : Config :=
  mkConfig (url config) (headers config) b (others config).

(** [AxiosError]: [status] is [error.response?.status], absent for a
    network error. *)
Record AxiosError := mkAxiosError {
  config : Config;
  status : option Z;
  message : string;
}.

(** What a promise is rejected with. *)
Inductive Reason :=
| ErrAxios (error : AxiosError)
| ErrNew (msg : string).

(** The outcome of [axios.post] on the refresh endpoint: [response.data.access]
    or the value caught as [refreshError]. *)
Inductive RefreshResult :=
| RefreshOk (access : string)
| RefreshFail (refreshError : Reason).

(** What leaves the client. *)
Inductive Action :=
| PostRefresh (refresh : string)        (* axios.post(".../auth/token/refresh/", { refresh }) *)
| Send (sent : Config)                  (* axiosInstance(config), after the request interceptor *)
| Navigate (path : string)              (* window.location.href = path *)
| Rejected (call : Config) (reason : Reason). (* the promise of a queued call is rejected *)

(** Reactions of the promises stored in [failedQueue], run after the handler
    that settled them has returned. *)
Inductive Microtask :=
| Then (originalRequest : Config)
| Catch (originalRequest : Config) (err : Reason).

(** What the error handler returns for the call it was invoked with. *)
Inductive Outcome :=
| Reject (reason : Reason)   (* return Promise.reject(reason) *)
| Retry (sent : Config)      (* return axiosInstance(originalRequest) *)
| Pending.                   (* queued, or suspended at the await *)

(** ** The module state *)

Record World := mkWorld {
  localStorage : gmap string string;
  isRefreshing : bool;
  failedQueue : list Config;   (* each { resolve, reject } with the request its closure holds *)
  inflight : list Config;      (* handlers suspended at [await axios.post], with their originalRequest *)
  microtasks : list Microtask;
  trace : list Action;
}.

(** A computation over the module state. *)
Definition M (A : Type) : Type := World -> A * World.

Definition ret {A} (a : A) : M A := fun w => (a, w).
Definition bind {A B} (m : M A) (k : A -> M B) : M B :=
  fun w => let (a, w') := m w in k a w'.

Declare Scope js_scope.
Delimit Scope js_scope with js.
Notation "x <- m ;; k" := (bind m (fun x => k))
  (at level 100, m at next level, right associativity) : js_scope.
Notation "m ;; k" := (bind m (fun _ => k))
  (at level 100, right associativity) : js_scope.
Open Scope js_scope.

Definition getItem (key : string) : M (option string) :=
  fun w => (localStorage w !! key, w).
Definition setItem (key value : string) : M unit :=
  fun w => (tt, mkWorld (<[key := value]> (localStorage w)) (isRefreshing w)
                        (failedQueue w) (inflight w) (microtasks w) (trace w)).
Definition removeItem (key : string) : M unit :=
  fun w => (tt, mkWorld (delete key (localStorage w)) (isRefreshing w)
                        (failedQueue w) (inflight w) (microtasks w) (trace w)).
Definition read_isRefreshing : M bool := fun w => (isRefreshing w, w).
Definition write_isRefreshing (b : bool) : M unit :=
  fun w => (tt, mkWorld (localStorage w) b (failedQueue w) (inflight w)
                        (microtasks w) (trace w)).
Definition read_failedQueue : M (list Config) := fun w => (failedQueue w, w).
Definition write_failedQueue (q : list Config) : M unit :=
  fun w => (tt, mkWorld (localStorage w) (isRefreshing w) q (inflight w)
                        (microtasks w) (trace w)).
Definition suspend (originalRequest : Config) : M unit :=
  fun w => (tt, mkWorld (localStorage w) (isRefreshing w) (failedQueue w)
                        (inflight w ++ [originalRequest]) (microtasks w) (trace w)).
Definition schedule (t : Microtask) : M unit :=
  fun w => (tt, mkWorld (localStorage w) (isRefreshing w) (failedQueue w)
                        (inflight w) (microtasks w ++ [t]) (trace w)).
Definition emit (a : Action) : M unit :=
  fun w => (tt, mkWorld (localStorage w) (isRefreshing w) (failedQueue w)
                        (inflight w) (microtasks w) (trace w ++ [a])).

(** ** Token store *)

Definition setAccessToken (token : option string) : M unit :=
  match truthy token with
  | Some t => setItem "accessToken" t
  | None => removeItem "accessToken"
  end.

Definition getAccessToken : M (option string) := getItem "accessToken".

Definition getRefreshToken : M (option string) := getItem "refreshToken".

Definition setRefreshToken (token : option string) : M unit :=
  match truthy token with
  | Some t => setItem "refreshToken" t
  | None => removeItem "refreshToken"
  end.

Definition clearTokens : M unit :=
  removeItem "accessToken" ;;
  removeItem "refreshToken".

(** ** Request interceptor *)

Definition requestInterceptor (config : Config) : M Config :=
  token <- getAccessToken ;;
  match truthy token, headers config with
  | Some t, Some _ => ret (set_Authorization ("Bearer " +:+ t) config)
  | _, _ => ret config
  end.

(** [axiosInstance(config)]: the request goes through the request
    interceptor and leaves.  The configuration keeps its fields, [_retry]
    included, on the way, and comes back as [error.config] if the call
    fails.  The interceptor reads the store when it runs; nothing between the
    call and that moment writes to the store. *)
Definition axiosInstance (config : Config) : M Config :=
  sent <- requestInterceptor config ;;
  emit (Send sent) ;;
  ret sent.

(** ** Response interceptor *)

Fixpoint forEach {A} (l : list A) (f : A -> M unit) : M unit :=
  match l with
  | [] => ret tt
  | x :: l' => f x ;; forEach l' f
  end.

(** [prom.reject(error)] and [prom.resolve()] settle the promise of a queued
    call; its reaction ([.catch] or [.then]) runs as a microtask. *)
Definition processQueue (error : option Reason) : M unit :=
  q <- read_failedQueue ;;
  forEach q (fun prom =>
    match error with
    | Some e => schedule (Catch prom e)
    | None => schedule (Then prom)
    end) ;;
  write_failedQueue [].

(** [String.prototype.includes]. *)
Fixpoint startsWith (s p : string) {struct p} : bool :=
  match p, s with
  | EmptyString, _ => true
  | String a p', String b s' => bool_decide (a = b) && startsWith s' p'
  | String _ _, EmptyString => false
  end.

Fixpoint includes (s p : string) : bool :=
  startsWith s p ||
  match s with
  | EmptyString => false
  | String _ s' => includes s' p
  end.

Definition isAuthEndpoint (originalRequest : Config) : bool :=
  match url originalRequest with
  | Some u =>
      includes u "/auth/signin" ||
      includes u "/auth/register" ||
      includes u "/auth/token/refresh"
  | None => false
  end.

(** The success handler of the response interceptor. *)
Definition onFulfilled {Response : Type} (response : Response) : Response := response.

(** The error handler of the response interceptor, up to its first
    suspension.  [error.config] and [originalRequest] are one object, so the
    error rejected after [originalRequest._retry = true] carries the mark. *)
Definition onRejected (error : AxiosError) : M Outcome :=
  let originalRequest := config error in
  if bool_decide (status error = Some 401%Z) && negb (_retry originalRequest) then
    if isAuthEndpoint originalRequest then
      ret (Reject (ErrAxios error))
    else
      refreshing <- read_isRefreshing ;;
      if refreshing then
        q <- read_failedQueue ;;
        write_failedQueue (q ++ [originalRequest]) ;;
        ret Pending
      else
        let originalRequest := set_retry true originalRequest in
        let error := mkAxiosError originalRequest (status error) (message error) in
        write_isRefreshing true ;;
        refreshToken <- getRefreshToken ;;
        match truthy refreshToken with
        | None =>
            clearTokens ;;
            processQueue (Some (ErrNew "No refresh token available")) ;;
            write_isRefreshing false ;;
            emit (Navigate "/auth/sign-in") ;;
            ret (Reject (ErrAxios error))
        | Some refreshToken =>
            emit (PostRefresh refreshToken) ;;
            suspend originalRequest ;;
            ret Pending
        end
  else
    ret (Reject (ErrAxios error)).

(** The rest of the error handler, once the awaited refresh call settles:
    the [try] block after the await, or the [catch] block. *)
Definition resume (originalRequest : Config) (r : RefreshResult) : M Outcome :=
  match r with
  | RefreshOk newAccessToken =>
      setAccessToken (Some newAccessToken) ;;
      let originalRequest :=
        set_Authorization ("Bearer " +:+ newAccessToken) originalRequest in
      processQueue None ;;
      write_isRefreshing false ;;
      sent <- axiosInstance originalRequest ;;
      ret (Retry sent)
  | RefreshFail refreshError =>
      processQueue (Some refreshError) ;;
      clearTokens ;;
      write_isRefreshing false ;;
      emit (Navigate "/auth/sign-in") ;;
      ret (Reject refreshError)
  end.

(** The reactions attached to a queued promise. *)
Definition runMicrotask (t : Microtask) : M unit :=
  match t with
  | Then originalRequest =>
      token <- getAccessToken ;;
      let originalRequest :=
        set_Authorization ("Bearer " +:+ template token) originalRequest in
      axiosInstance originalRequest ;;
      ret tt
  | Catch originalRequest err =>
      emit (Rejected originalRequest err)
  end.

(** ** The event loop *)

(** The microtask checkpoint after a handler has run. *)
Definition checkpoint : M unit :=
  fun w =>
    forEach (microtasks w) runMicrotask
      (mkWorld (localStorage w) (isRefreshing w) (failedQueue w) (inflight w)
               [] (trace w)).

Definition task {A} (m : M A) : M A :=
  a <- m ;;
  checkpoint ;;
  ret a.

Inductive Event :=
| Failed (error : AxiosError)             (* a call failed: the error handler is invoked *)
| Settled (k : nat) (r : RefreshResult).  (* the refresh call of the k-th suspended handler settles *)

Definition take_inflight (k : nat) : M (option Config) :=
  fun w => (inflight w !! k,
            mkWorld (localStorage w) (isRefreshing w) (failedQueue w)
                    (delete k (inflight w)) (microtasks w) (trace w)).

Definition exec (ev : Event) (w : World) : option (Outcome * World) :=
  match ev with
  | Failed error => Some (task (onRejected error) w)
  | Settled k r =>
      match inflight w !! k with
      | Some originalRequest =>
          Some (task (take_inflight k ;; resume originalRequest r) w)
      | None => None
      end
  end.

Fixpoint run (evs : list Event) (w : World) : option (list Outcome * World) :=
  match evs with
  | [] => Some ([], w)
  | ev :: evs' =>
      match exec ev w with
      | Some (o, w') =>
          match run evs' w' with
          | Some (os, w'') => Some (o :: os, w'')
          | None => None
          end
      | None => None
      end
  end.

Definition initial (storage : gmap string string) : World :=
  mkWorld storage false [] [] [] [].

Definition reachable (w : World) : Prop :=
  exists storage evs os, run evs (initial storage) = Some (os, w).

(** ** Observations on a trace *)

Definition isPostRefresh (a : Action) : bool :=
  match a with PostRefresh _ => true | _ => false end.

Definition refreshCalls (t : list Action) : nat := length (filter isPostRefresh t).

Definition sentTo (u : string) (a : Action) : bool :=
  match a with
  | Send c => bool_decide (url c = Some u)
  | _ => false
  end.

Definition Authorization (c : Config) : option string :=
  h ← headers c; h !! "Authorization".

(** ** What a setter stores *)

Definition stored (key : string) (token : option string)
    (storage : gmap string string) : gmap string string :=
  match truthy token with
  | Some t => <[key := t]> storage
  | None => delete key storage
  end.

(** ** What a handler sends *)

(** The request sent for [config] when the stored access token is [token]. *)
Definition sentWith (token : option string) (config : Config) : Config :=
  match truthy token, headers config with
  | Some t, Some _ => set_Authorization ("Bearer " +:+ t) config
  | _, _ => config
  end.

(** The request a resolved continuation sends. *)
Definition retryQueued (token : option string) (originalRequest : Config) : Config :=
  sentWith token (set_Authorization ("Bearer " +:+ template token) originalRequest).

Definition traceOf (token : option string) (t : Microtask) : Action :=
  match t with
  | Then originalRequest => Send (retryQueued token originalRequest)
  | Catch originalRequest err => Rejected originalRequest err
  end.

(** ** States of the coordinator *)

Definition idle (w : World) : Prop :=
  isRefreshing w = false /\ inflight w = [] /\ failedQueue w = [].

Definition refreshing (w : World) : Prop :=
  isRefreshing w = true /\
  (exists originalRequest, inflight w = [originalRequest]) /\
  is_Some (truthy (localStorage w !! "refreshToken")).

(** What holds between two events. *)
Definition coherent (w : World) : Prop :=
  microtasks w = [] /\ (idle w \/ refreshing w).

Definition signedOut (w : World) : Prop :=
  fst (getAccessToken w) = None /\ fst (getRefreshToken w) = None.

(** The 401 responses the coordinator acts on. *)
Definition needsRefresh (error : AxiosError) : Prop :=
  status error = Some 401%Z /\
  _retry (config error) = false /\
  isAuthEndpoint (config error) = false.

(** The events that end the session: a 401 that finds no refresh token, and
    a refresh call that fails. *)
Definition sessionEnds (w : World) (ev : Event) : Prop :=
  match ev with
  | Failed error => needsRefresh error /\ truthy (fst (getRefreshToken w)) = None
  | Settled _ (RefreshFail _) => True
  | Settled _ (RefreshOk _) => False
  end.

(** ** Sample calls *)

Definition jsonHeaders : gmap string string :=
  {["Content-Type" := "application/json"]}.

Definition call (u : string) : Config :=
  mkConfig (Some u) (Some jsonHeaders) false ∅.

Definition unauthorized (c : Config) : AxiosError :=
  mkAxiosError c (Some 401%Z) "Request failed with status code 401".

Definition signedIn : gmap string string :=
  {["accessToken" := "tok1"; "refreshToken" := "ref1"]}.

Definition accessOnly : gmap string string :=
  {["accessToken" := "tok1"]}.

(** The state after "/posts/" then "/videos/" got a 401 while signed in. *)
Definition refreshingTwo : World :=
  mkWorld signedIn true [call "/videos/"] [set_retry true (call "/posts/")] []
          [PostRefresh "ref1"].

(** The state after the refresh call then succeeded with "tok2". *)
Definition refreshedTwo : World :=
  mkWorld (<["accessToken" := "tok2"]> signedIn) false [] [] []
          [PostRefresh "ref1";
           Send (set_Authorization "Bearer tok2" (set_retry true (call "/posts/")));
           Send (set_Authorization "Bearer tok2" (call "/videos/"))].

(** "/videos/" is queued behind the refresh that "/posts/" started, is sent
    again with the new token, gets a second 401, and a second refresh call
    succeeds. *)
Definition retriedVideos : Config :=
  set_Authorization "Bearer tok2" (call "/videos/").

Definition secondFailure : list Event :=
  [Failed (unauthorized (call "/posts/"));
   Failed (unauthorized (call "/videos/"));
   Settled 0 (RefreshOk "tok2");
   Failed (unauthorized retriedVideos);
   Settled 0 (RefreshOk "tok3")].

(** ** The transition table *)

(** One event on a state with no reaction pending, row by row: what the
    handler returns for its call and the state it leaves. *)
Inductive transition : World -> Event -> Outcome -> World -> Prop :=
| t_propagate w error :
    status error <> Some 401%Z \/ _retry (config error) = true \/
      isAuthEndpoint (config error) = true ->
    transition w (Failed error) (Reject (ErrAxios error)) w
| t_enqueue w error :
    needsRefresh error -> isRefreshing w = true ->
    transition w (Failed error) Pending
      (mkWorld (localStorage w) true (failedQueue w ++ [config error])
               (inflight w) [] (trace w))
| t_refresh w error refreshToken :
    needsRefresh error -> isRefreshing w = false ->
    truthy (localStorage w !! "refreshToken") = Some refreshToken ->
    transition w (Failed error) Pending
      (mkWorld (localStorage w) true (failedQueue w)
               (inflight w ++ [set_retry true (config error)]) []
               (trace w ++ [PostRefresh refreshToken]))
| t_no_refreshToken w error :
    needsRefresh error -> isRefreshing w = false ->
    truthy (localStorage w !! "refreshToken") = None ->
    transition w (Failed error)
      (Reject (ErrAxios (mkAxiosError (set_retry true (config error))
                                      (status error) (message error))))
      (mkWorld (delete "refreshToken" (delete "accessToken" (localStorage w)))
               false [] (inflight w) []
               (trace w ++ Navigate "/auth/sign-in" ::
                  map (fun prom => Rejected prom (ErrNew "No refresh token available"))
                      (failedQueue w)))
| t_settled_ok w k originalRequest newAccessToken :
    inflight w !! k = Some originalRequest ->
    let storage := stored "accessToken" (Some newAccessToken) (localStorage w) in
    let sent := sentWith (storage !! "accessToken")
                  (set_Authorization ("Bearer " +:+ newAccessToken) originalRequest) in
    transition w (Settled k (RefreshOk newAccessToken)) (Retry sent)
      (mkWorld storage false [] (delete k (inflight w)) []
               (trace w ++ Send sent ::
                  map (fun prom => Send (retryQueued (storage !! "accessToken") prom))
                      (failedQueue w)))
| t_settled_fail w k originalRequest refreshError :
    inflight w !! k = Some originalRequest ->
    transition w (Settled k (RefreshFail refreshError)) (Reject refreshError)
      (mkWorld (delete "refreshToken" (delete "accessToken" (localStorage w)))
               false [] (delete k (inflight w)) []
               (trace w ++ Navigate "/auth/sign-in" ::
                  map (fun prom => Rejected prom refreshError) (failedQueue w))).

(** The actions an event added to the trace. *)
Definition added (w w' : World) : list Action :=
  drop (length (trace w)) (trace w').

Definition isNavigate (a : Action) : bool :=
  match a with Navigate _ => true | _ => false end.

(** What the handler of an interrupted call was suspended with: a request it
    has marked and that is not exempt. *)
Definition marked (c : Config) : Prop :=
  _retry c = true /\ isAuthEndpoint c = false.

(** The state after the refresh call of [refreshingTwo] failed instead. *)
Definition signedOutTwo : World :=
  mkWorld ∅ false [] [] []
          [PostRefresh "ref1"; Navigate "/auth/sign-in";
           Rejected (call "/videos/") (ErrNew "expired")].

(** ** The newsfeed service (services/newsfeedService.ts) *)

(** A string of decimal digits, as a template literal prints the id of a
    feed. *)
Fixpoint allDigits (s : string) : bool :=
  match s with
  | EmptyString => true
  | String c s' =>
      bool_decide (c ∈ ["0"; "1"; "2"; "3"; "4"; "5"; "6"; "7"; "8"; "9"]%char)
      && allDigits s'
  end.

Fixpoint endsWithSlash (s : string) : bool :=
  match s with
  | EmptyString => false
  | String c EmptyString => bool_decide (c = "/"%char)
  | String _ s' => endsWithSlash s'
  end.

Module NewsfeedService.

Inductive RankingStyle := balanced | focused | fresh | trending.

Inductive Platform := bluesky | tiktok.

Record CreateFeedRequest := mkCreateFeedRequest {
  title : string;
  user_intent : string;
  ranking_style : RankingStyle;
  platform : option Platform;
}.

Record SaveItemRequest := mkSaveItemRequest {
  social_post_id : N;
  tags : option (list string);
  notes : option string;
}.

Inductive Method := GET | POST | DELETE.

Inductive Body :=
| FeedBody (data : CreateFeedRequest)
| SaveBody (data : SaveItemRequest).

(** What a service function asks of the client: [axiosInstance.get(path)],
    [axiosInstance.post(path, body)] or [axiosInstance.delete(path)]. *)
Record Request := mkRequest {
  method : Method;
  path : string;
  body : option Body;
}.

(** The id of a feed is a non-negative integer; [`${feedId}`] prints it in
    decimal. *)
Definition createFeed (data : CreateFeedRequest) : Request :=
  mkRequest POST "/posts/"
    (Some (FeedBody (mkCreateFeedRequest (title data) (user_intent data)
                       (ranking_style data)
                       (Some (default bluesky (platform data)))))).

Definition refreshFeed (feedId : N) : Request :=
  mkRequest POST ("/posts/" +:+ pretty feedId +:+ "/refresh/") None.

Definition getFeedItems (feedId : N) : Request :=
  mkRequest GET ("/posts/" +:+ pretty feedId +:+ "/items/") None.

Definition getFeeds : Request := mkRequest GET "/posts/" None.

Definition getFeed (feedId : N) : Request :=
  mkRequest GET ("/posts/" +:+ pretty feedId +:+ "/") None.

Definition deleteFeed (feedId : N) : Request :=
  mkRequest DELETE ("/posts/" +:+ pretty feedId +:+ "/") None.

Definition savePost (data : SaveItemRequest) : Request :=
  mkRequest POST "/save/" (Some (SaveBody data)).

Definition createVideoFeed (data : CreateFeedRequest) : Request :=
  mkRequest POST "/videos/"
    (Some (FeedBody (mkCreateFeedRequest (title data) (user_intent data)
                       (ranking_style data) (Some tiktok)))).

Definition refreshVideoFeed (feedId : N) : Request :=
  mkRequest POST ("/videos/" +:+ pretty feedId +:+ "/refresh/") None.

Definition getVideoFeedItems (feedId : N) : Request :=
  mkRequest GET ("/videos/" +:+ pretty feedId +:+ "/items/") None.

Definition getVideoFeeds : Request := mkRequest GET "/videos/" None.

Definition getVideoFeed (feedId : N) : Request :=
  mkRequest GET ("/videos/" +:+ pretty feedId +:+ "/") None.

Definition deleteVideoFeed (feedId : N) : Request :=
  mkRequest DELETE ("/videos/" +:+ pretty feedId +:+ "/") None.

(** The requests the service can issue. *)
Inductive issued : Request -> Prop :=
| issued_createFeed data : issued (createFeed data)
| issued_refreshFeed feedId : issued (refreshFeed feedId)
| issued_getFeedItems feedId : issued (getFeedItems feedId)
| issued_getFeeds : issued getFeeds
| issued_getFeed feedId : issued (getFeed feedId)
| issued_deleteFeed feedId : issued (deleteFeed feedId)
| issued_savePost data : issued (savePost data)
| issued_createVideoFeed data : issued (createVideoFeed data)
| issued_refreshVideoFeed feedId : issued (refreshVideoFeed feedId)
| issued_getVideoFeedItems feedId : issued (getVideoFeedItems feedId)
| issued_getVideoFeeds : issued getVideoFeeds
| issued_getVideoFeed feedId : issued (getVideoFeed feedId)
| issued_deleteVideoFeed feedId : issued (deleteVideoFeed feedId).

(** The functions that address one feed by its id ([deleteFeed] and
    [deleteVideoFeed] use the paths of [getFeed] and [getVideoFeed]). *)
Definition perFeed : list (N -> Request) :=
  [getFeed; getFeedItems; refreshFeed;
   getVideoFeed; getVideoFeedItems; refreshVideoFeed].

End NewsfeedService.

(** ** The newsfeed hooks (hooks/useNewsfeed.ts) *)

Module Hooks.
Import NewsfeedService.

(** The [options] argument of [useFeedItems] and [useVideoFeedItems]. *)
Record Options := mkOptions {
  enabled : option bool;
  refetchInterval : option Z;
}.

(** What is handed to [useQuery].  [queryFn] is the request the query
    function issues, or [None] where it is [Promise.resolve([])];
    [queryRefetchInterval] is [None] where the source passes [false]. *)
Record Query := mkQuery {
  queryKey : string * option N;
  queryFn : option Request;
  queryEnabled : bool;
  queryRefetchInterval : option Z;
  staleTime : Z;
}.

(** A number tested by [feedId ? _ : _] or [x || false]: zero is falsy. *)
Definition nonzeroN (n : N) : bool := negb (bool_decide (n = 0%N)).

Definition orFalse (interval : option Z) : option Z :=
  match interval with
  | Some n => if bool_decide (n = 0%Z) then None else Some n
  | None => None
  end.

Definition useFeedItems (feedId : option N) (options : option Options) : Query :=
  mkQuery ("feedItems", feedId)
    (match feedId with
     | Some id => if nonzeroN id then Some (getFeedItems id) else None
     | None => None
     end)
    (negb (bool_decide (options ≫= enabled = Some false)) &&
     bool_decide (feedId <> None))
    (orFalse (options ≫= refetchInterval))
    30000.

Definition useVideoFeedItems (feedId : option N) (options : option Options) : Query :=
  mkQuery ("videoFeedItems", feedId)
    (match feedId with
     | Some id => if nonzeroN id then Some (getVideoFeedItems id) else None
     | None => None
     end)
    (negb (bool_decide (options ≫= enabled = Some false)) &&
     bool_decide (feedId <> None))
    (orFalse (options ≫= refetchInterval))
    30000.

(** A mutation of [useNewsfeed]: the request of its [mutationFn] and the
    query key its [onSuccess] invalidates. *)
Record Mutation := mkMutation {
  mutationFn : Request;
  invalidates : string * option N;
}.

Definition refreshFeedMutation (feedId : N) : Mutation :=
  mkMutation (refreshFeed feedId) ("feedItems", Some feedId).

Definition refreshVideoFeedMutation (feedId : N) : Mutation :=
  mkMutation (refreshVideoFeed feedId) ("videoFeedItems", Some feedId).

End Hooks.

(** ** The newsfeed page (NewsfeedPage) *)

Module NewsfeedPage.
Import NewsfeedService Hooks.

Inductive ContentType := posts | reels.

(** [a === b] on content types. *)
Definition sameType (a b : ContentType) : bool :=
  match a, b with
  | posts, posts | reels, reels => true
  | _, _ => false
  end.

(** An object with the keys [posts] and [reels]. *)
Record PerType (A : Type) := mkPerType {
  ofPosts : A;
  ofReels : A;
}.
Arguments mkPerType {A} _ _.
Arguments ofPosts {A} _.
Arguments ofReels {A} _.

(** [obj[contentType]] and [{ ...obj, [contentType]: val }]. *)
Definition at_ {A} (c : ContentType) (obj : PerType A) : A :=
  match c with posts => ofPosts obj | reels => ofReels obj end.

Definition with_ {A} (c : ContentType) (val : A) (obj : PerType A) : PerType A :=
  match c with
  | posts => mkPerType val (ofReels obj)
  | reels => mkPerType (ofPosts obj) val
  end.

(** The state of the component that its queries and these handlers use. *)
Record State := mkState {
  contentType : ContentType;
  prompts : PerType string;
  filters : PerType string;
  feedIds : PerType (option N);
  isPolling : bool;
}.

Definition currentFeedId (s : State) : option N := at_ (contentType s) (feedIds s).

(** The two item queries of the page, with the options it passes. *)
Definition postsPolling (s : State) : bool :=
  bool_decide (ofPosts (feedIds s) <> None) &&
  sameType (contentType s) posts && isPolling s.

Definition reelsPolling (s : State) : bool :=
  bool_decide (ofReels (feedIds s) <> None) &&
  sameType (contentType s) reels && isPolling s.

Definition postsQuery (s : State) : Query :=
  useFeedItems (ofPosts (feedIds s))
    (Some (mkOptions (Some (postsPolling s))
                     (if postsPolling s then Some 5000%Z else None))).

Definition reelsQuery (s : State) : Query :=
  useVideoFeedItems (ofReels (feedIds s))
    (Some (mkOptions (Some (reelsPolling s))
                     (if reelsPolling s then Some 5000%Z else None))).

Definition handleStopPolling (s : State) : State :=
  mkState (contentType s) (prompts s) (filters s) (feedIds s) false.

Definition handleClearFilter (s : State) : State :=
  mkState (contentType s)
          (with_ (contentType s) "" (prompts s))
          (with_ (contentType s) "" (filters s))
          (with_ (contentType s) None (feedIds s))
          false.

(** [handleManualRefresh]: the state it leaves and the mutation it starts. *)
Definition handleManualRefresh (s : State) : State * option Mutation :=
  match currentFeedId s with
  | Some id =>
      if nonzeroN id then
        (mkState (contentType s) (prompts s) (filters s) (feedIds s) true,
         Some (match contentType s with
               | posts => refreshFeedMutation id
               | reels => refreshVideoFeedMutation id
               end))
      else (s, None)
  | None => (s, None)
  end.

(** The effects that persist the filters and the polling flag in
    sessionStorage, and the initialisers that read them back. *)
Definition persistFilters (f : PerType string)
    (sessionStorage : gmap string string) : gmap string string :=
  let sessionStorage :=
    match truthy (Some (ofPosts f)) with
    | Some v => <["newsfeed_activeFilter" := v]> sessionStorage
    | None => delete "newsfeed_activeFilter" sessionStorage
    end in
  match truthy (Some (ofReels f)) with
  | Some v => <["newsfeed_reelsFilter" := v]> sessionStorage
  | None => delete "newsfeed_reelsFilter" sessionStorage
  end.

Definition initFilters (sessionStorage : gmap string string) : PerType string :=
  mkPerType
    (default "" (truthy (sessionStorage !! "newsfeed_activeFilter")))
    (default "" (truthy (sessionStorage !! "newsfeed_reelsFilter"))).

Definition persistIsPolling (b : bool)
    (sessionStorage : gmap string string) : gmap string string :=
  <["newsfeed_isPolling" := if b then "true" else "false"]> sessionStorage.

Definition initIsPolling (sessionStorage : gmap string string) : bool :=
  bool_decide (sessionStorage !! "newsfeed_isPolling" = Some "true").

(** [formatTimestamp], from the two instants in milliseconds;
    [localeDate] is [date.toLocaleDateString()]. *)
Definition formatTimestamp (now date : Z) (localeDate : string) : string :=
  let seconds := ((now - date) `div` 1000)%Z in
  if bool_decide (seconds < 60)%Z then pretty seconds +:+ "s"
  else if bool_decide (seconds < 3600)%Z then pretty (seconds `div` 60)%Z +:+ "m"
  else if bool_decide (seconds < 86400)%Z then pretty (seconds `div` 3600)%Z +:+ "h"
  else if bool_decide (seconds < 604800)%Z then pretty (seconds `div` 86400)%Z +:+ "d"
  else localeDate.

End NewsfeedPage.

(** ** The message list of the chat page (ChatPage, onSend) *)

Module ChatPage.







End ChatPage.

(** * Properties *)

(** ** Strings *)

Lemma startsWith_spec (p s : string) :
  startsWith s p = true <-> exists post, s = p +:+ post.
Proof.
  revert s; induction p as [|a p IH]; intros s; simpl.
  - split; [intros _; exists s; reflexivity | reflexivity].
  - destruct s as [|b s].
    + split; [discriminate | intros [post H]; discriminate].
    + rewrite andb_true_iff, bool_decide_eq_true, IH. split.
      * intros [-> [post ->]]. exists post. reflexivity.
      * intros [post H]. injection H as -> ->. eauto.
Qed.

Lemma includes_spec (s p : string) :
  includes s p = true <-> exists pre post, s = pre +:+ p +:+ post.
Proof.
  induction s as [|b s IH]; simpl.
  - rewrite orb_false_r, startsWith_spec. split.
    + intros [post H]. exists "", post. exact H.
    + intros [pre [post H]]. destruct pre; [eauto | discriminate].
  - rewrite orb_true_iff, startsWith_spec, IH. split.
    + intros [[post H] | [pre [post H]]].
      * exists "", post. exact H.
      * exists (String b pre), post. simpl. rewrite H. reflexivity.
    + intros [pre [post H]]. destruct pre as [|c pre].
      * left. exists post. exact H.
      * right. injection H as -> ->. eauto.
Qed.

Lemma truthy_Some (t : string) : t <> "" -> truthy (Some t) = Some t.
Proof. destruct t; [congruence | reflexivity]. Qed.

(** ** Token store *)

Section TokenStore.
Variable w : World.

Lemma setAccessToken_get (t : string) :
  t <> "" -> fst ((setAccessToken (Some t) ;; getAccessToken) w) = Some t.
Proof.
  intros Ht. unfold bind, setAccessToken. rewrite truthy_Some by done.
  simpl. apply lookup_insert_eq.
Qed.

Lemma setAccessToken_falsy_get (token : option string) :
  truthy token = None -> fst ((setAccessToken token ;; getAccessToken) w) = None.
Proof.
  intros Ht. unfold bind, setAccessToken. rewrite Ht. simpl.
  apply lookup_delete_eq.
Qed.

Lemma setRefreshToken_get (t : string) :
  t <> "" -> fst ((setRefreshToken (Some t) ;; getRefreshToken) w) = Some t.
Proof.
  intros Ht. unfold bind, setRefreshToken. rewrite truthy_Some by done.
  simpl. apply lookup_insert_eq.
Qed.

Lemma setRefreshToken_falsy_get (token : option string) :
  truthy token = None -> fst ((setRefreshToken token ;; getRefreshToken) w) = None.
Proof.
  intros Ht. unfold bind, setRefreshToken. rewrite Ht. simpl.
  apply lookup_delete_eq.
Qed.

(** A setter writes one key of the storage only. *)
Lemma setAccessToken_frame (token : option string) (key : string) :
  key <> "accessToken" ->
  fst ((setAccessToken token ;; getItem key) w) = fst (getItem key w).
Proof.
  intros Hk. unfold bind, setAccessToken.
  destruct (truthy token); simpl.
  - by rewrite lookup_insert_ne.
  - by rewrite lookup_delete_ne.
Qed.

Lemma setRefreshToken_frame (token : option string) (key : string) :
  key <> "refreshToken" ->
  fst ((setRefreshToken token ;; getItem key) w) = fst (getItem key w).
Proof.
  intros Hk. unfold bind, setRefreshToken.
  destruct (truthy token); simpl.
  - by rewrite lookup_insert_ne.
  - by rewrite lookup_delete_ne.
Qed.

Lemma clearTokens_get :
  fst ((clearTokens ;; getAccessToken) w) = None /\
  fst ((clearTokens ;; getRefreshToken) w) = None.
Proof.
  unfold bind, clearTokens, bind. simpl. split.
  - rewrite lookup_delete_ne by done. apply lookup_delete_eq.
  - apply lookup_delete_eq.
Qed.
End TokenStore.

(** C10, as amended: a non-empty string written by a setter is read back, a
    null or empty argument leaves the credential absent, and a setter does not
    change what the other getter returns. *)
Theorem token_store_roundtrip (w : World) (t : string) :
  t <> "" ->
  fst ((setAccessToken (Some t) ;; getAccessToken) w) = Some t /\
  fst ((setRefreshToken (Some t) ;; getRefreshToken) w) = Some t /\
  fst ((setAccessToken None ;; getAccessToken) w) = None /\
  fst ((setRefreshToken None ;; getRefreshToken) w) = None /\
  fst ((setAccessToken (Some "") ;; getAccessToken) w) = None /\
  fst ((setRefreshToken (Some "") ;; getRefreshToken) w) = None /\
  (forall token, fst ((setAccessToken token ;; getRefreshToken) w) = fst (getRefreshToken w)) /\
  (forall token, fst ((setRefreshToken token ;; getAccessToken) w) = fst (getAccessToken w)).
Proof.
  intros Ht. repeat split.
  - by apply setAccessToken_get.
  - by apply setRefreshToken_get.
  - by apply setAccessToken_falsy_get.
  - by apply setRefreshToken_falsy_get.
  - by apply setAccessToken_falsy_get.
  - by apply setRefreshToken_falsy_get.
  - intros token. by apply setAccessToken_frame.
  - intros token. by apply setRefreshToken_frame.
Qed.

Lemma token_store_roundtrip_witness :
  "tok2" <> "" /\
  fst ((setAccessToken (Some "tok2") ;; getAccessToken) (initial ∅)) = Some "tok2".
Proof.
  split; [discriminate |].
  apply (token_store_roundtrip (initial ∅) "tok2"). discriminate.
Defined.

(** C10 as stated fails at the empty string: [setAccessToken] called with it
    removes the item, and the read gives null, not the empty string. *)
Lemma token_store_roundtrip_empty_string :
  fst ((setAccessToken (Some "") ;; getAccessToken) (initial ∅)) <> Some "".
Proof. vm_compute. discriminate. Qed.

(** ** Request interceptor *)

Lemma requestInterceptor_world (config : Config) (w : World) :
  snd (requestInterceptor config w) = w.
Proof.
  unfold requestInterceptor, bind, getAccessToken, getItem.
  destruct (truthy _), (headers config); reflexivity.
Qed.

Lemma requestInterceptor_token (config : Config) (w : World) (t : string) :
  truthy (localStorage w !! "accessToken") = Some t ->
  requestInterceptor config w = (set_Authorization ("Bearer " +:+ t) config, w).
Proof.
  intros Ht. unfold requestInterceptor, bind, getAccessToken, getItem.
  rewrite Ht. unfold set_Authorization. destruct (headers config); reflexivity.
Qed.

Lemma requestInterceptor_no_token (config : Config) (w : World) :
  truthy (localStorage w !! "accessToken") = None ->
  requestInterceptor config w = (config, w).
Proof.
  intros Ht. unfold requestInterceptor, bind, getAccessToken, getItem.
  rewrite Ht. reflexivity.
Qed.

(** C7: with the headers object every request configuration has, the request
    interceptor sets Authorization to "Bearer " followed by the stored access
    token and changes nothing else of the request or of the state; without
    a stored access token it returns the request as it is. *)
Theorem request_interceptor_frame
    (config : Config) (w : World) (h : gmap string string) :
  headers config = Some h ->
  (forall t, t <> "" -> fst (getAccessToken w) = Some t ->
     requestInterceptor config w =
       (mkConfig (url config) (Some (<["Authorization" := "Bearer " +:+ t]> h))
                 (_retry config) (others config), w)) /\
  (fst (getAccessToken w) = None -> requestInterceptor config w = (config, w)).
Proof.
  intros Hh. split.
  - intros t Ht Hw. simpl in Hw.
    rewrite (requestInterceptor_token config w t).
    + unfold set_Authorization. rewrite Hh. reflexivity.
    + rewrite Hw. by apply truthy_Some.
  - intros Hw. simpl in Hw. apply requestInterceptor_no_token.
    rewrite Hw. reflexivity.
Qed.

Lemma request_interceptor_frame_witness :
  Authorization (fst (requestInterceptor (call "/posts/") (initial signedIn)))
    = Some "Bearer tok1" /\
  requestInterceptor (call "/posts/") (initial ∅) = (call "/posts/", initial ∅).
Proof.
  destruct (request_interceptor_frame (call "/posts/") (initial signedIn)
              jsonHeaders eq_refl) as [Hset _].
  destruct (request_interceptor_frame (call "/posts/") (initial ∅)
              jsonHeaders eq_refl) as [_ Hnone].
  split.
  - rewrite (Hset "tok1"); [reflexivity | discriminate | reflexivity].
  - apply Hnone. reflexivity.
Defined.

(** ** The error handler, branch by branch *)

Lemma forEach_schedule (f : Config -> Microtask) (q : list Config) (w : World) :
  forEach q (fun prom => schedule (f prom)) w =
    (tt, mkWorld (localStorage w) (isRefreshing w) (failedQueue w) (inflight w)
                 (microtasks w ++ map f q) (trace w)).
Proof.
  revert w; induction q as [|c q IH]; intros w; simpl.
  - unfold ret. rewrite app_nil_r. by destruct w.
  - unfold bind at 1. simpl. rewrite IH. simpl.
    by rewrite <- app_assoc.
Qed.

Lemma processQueue_eq (error : option Reason) (w : World) :
  processQueue error w =
    (tt, mkWorld (localStorage w) (isRefreshing w) [] (inflight w)
           (microtasks w ++
              map (fun prom => match error with
                               | Some e => Catch prom e
                               | None => Then prom
                               end) (failedQueue w))
           (trace w)).
Proof.
  unfold processQueue, bind, read_failedQueue, write_failedQueue.
  destruct error as [e|]; rewrite forEach_schedule; reflexivity.
Qed.

Lemma onRejected_propagate (error : AxiosError) (w : World) :
  status error <> Some 401%Z \/ _retry (config error) = true \/
    isAuthEndpoint (config error) = true ->
  onRejected error w = (Reject (ErrAxios error), w).
Proof.
  intros H. unfold onRejected.
  destruct (bool_decide (status error = Some 401%Z)) eqn:Hs; simpl; [|done].
  destruct (_retry (config error)) eqn:Hr; simpl; [done|].
  destruct (isAuthEndpoint (config error)) eqn:Ha; [done|].
  apply bool_decide_eq_true in Hs.
  destruct H as [H | [H | H]]; congruence.
Qed.

Ltac handler_cond H :=
  destruct H as (Hs & Hr & Ha); unfold onRejected;
  rewrite Hs, Hr, Ha, bool_decide_eq_true_2 by reflexivity; simpl.

Lemma onRejected_enqueue (error : AxiosError) (w : World) :
  needsRefresh error -> isRefreshing w = true ->
  onRejected error w =
    (Pending, mkWorld (localStorage w) (isRefreshing w)
                      (failedQueue w ++ [config error]) (inflight w)
                      (microtasks w) (trace w)).
Proof.
  intros H Hw. handler_cond H.
  unfold bind, read_isRefreshing. rewrite Hw. simpl. rewrite Hw. reflexivity.
Qed.

Lemma onRejected_refresh (error : AxiosError) (w : World) (refreshToken : string) :
  needsRefresh error -> isRefreshing w = false ->
  truthy (localStorage w !! "refreshToken") = Some refreshToken ->
  onRejected error w =
    (Pending, mkWorld (localStorage w) true (failedQueue w)
                      (inflight w ++ [set_retry true (config error)])
                      (microtasks w) (trace w ++ [PostRefresh refreshToken])).
Proof.
  intros H Hw Ht. handler_cond H.
  unfold bind, read_isRefreshing. rewrite Hw. simpl. rewrite Ht. reflexivity.
Qed.

Lemma onRejected_no_refreshToken (error : AxiosError) (w : World) :
  needsRefresh error -> isRefreshing w = false ->
  truthy (localStorage w !! "refreshToken") = None ->
  onRejected error w =
    (Reject (ErrAxios (mkAxiosError (set_retry true (config error))
                                    (status error) (message error))),
     mkWorld (delete "refreshToken" (delete "accessToken" (localStorage w)))
             false [] (inflight w)
             (microtasks w ++
                map (fun prom => Catch prom (ErrNew "No refresh token available"))
                    (failedQueue w))
             (trace w ++ [Navigate "/auth/sign-in"])).
Proof.
  intros H Hw Ht. handler_cond H.
  unfold bind at 1. unfold read_isRefreshing. rewrite Hw.
  do 2 (unfold bind at 1; simpl). rewrite Ht.
  do 2 (unfold bind at 1; simpl). rewrite processQueue_eq. reflexivity.
Qed.

(** ** The continuation of the handler *)

Lemma axiosInstance_eq (config : Config) (w : World) :
  axiosInstance config w =
    (fst (requestInterceptor config w),
     mkWorld (localStorage w) (isRefreshing w) (failedQueue w) (inflight w)
             (microtasks w) (trace w ++ [Send (fst (requestInterceptor config w))])).
Proof.
  unfold axiosInstance, bind.
  pose proof (requestInterceptor_world config w) as Hw.
  destruct (requestInterceptor config w) as [sent w']. simpl in *. by subst.
Qed.

Lemma requestInterceptor_eq (config : Config) (w : World) :
  requestInterceptor config w = (sentWith (localStorage w !! "accessToken") config, w).
Proof.
  unfold requestInterceptor, sentWith, bind, getAccessToken, getItem.
  destruct (truthy _), (headers config); reflexivity.
Qed.

Lemma runMicrotask_eq (t : Microtask) (w : World) :
  runMicrotask t w =
    (tt, mkWorld (localStorage w) (isRefreshing w) (failedQueue w) (inflight w)
                 (microtasks w)
                 (trace w ++ [traceOf (localStorage w !! "accessToken") t])).
Proof.
  destruct t as [c | c e]; simpl; [|reflexivity].
  unfold bind, getAccessToken, getItem.
  rewrite axiosInstance_eq, requestInterceptor_eq. reflexivity.
Qed.

Lemma forEach_runMicrotask (ts : list Microtask) (w : World) :
  forEach ts runMicrotask w =
    (tt, mkWorld (localStorage w) (isRefreshing w) (failedQueue w) (inflight w)
                 (microtasks w)
                 (trace w ++ map (traceOf (localStorage w !! "accessToken")) ts)).
Proof.
  revert w; induction ts as [|t ts IH]; intros w; simpl.
  - unfold ret. rewrite app_nil_r. by destruct w.
  - unfold bind at 1. rewrite runMicrotask_eq, IH. simpl.
    by rewrite <- app_assoc.
Qed.

Lemma checkpoint_eq (w : World) :
  checkpoint w =
    (tt, mkWorld (localStorage w) (isRefreshing w) (failedQueue w) (inflight w) []
                 (trace w ++ map (traceOf (localStorage w !! "accessToken"))
                                 (microtasks w))).
Proof. unfold checkpoint. rewrite forEach_runMicrotask. reflexivity. Qed.

Lemma checkpoint_nothing (w : World) :
  microtasks w = [] -> checkpoint w = (tt, w).
Proof.
  intros H. rewrite checkpoint_eq, H. simpl. rewrite app_nil_r.
  destruct w; simpl in *; by subst.
Qed.

Lemma setAccessToken_eq (token : option string) (w : World) :
  setAccessToken token w =
    (tt, mkWorld (stored "accessToken" token (localStorage w)) (isRefreshing w)
                 (failedQueue w) (inflight w) (microtasks w) (trace w)).
Proof. unfold setAccessToken, stored. destruct (truthy token); reflexivity. Qed.

Lemma resume_ok (originalRequest : Config) (newAccessToken : string) (w : World) :
  resume originalRequest (RefreshOk newAccessToken) w =
    let storage := stored "accessToken" (Some newAccessToken) (localStorage w) in
    let sent := sentWith (storage !! "accessToken")
                  (set_Authorization ("Bearer " +:+ newAccessToken) originalRequest) in
    (Retry sent,
     mkWorld storage false [] (inflight w)
             (microtasks w ++ map Then (failedQueue w))
             (trace w ++ [Send sent])).
Proof.
  unfold resume. unfold bind at 1. rewrite setAccessToken_eq.
  unfold bind at 1. rewrite processQueue_eq.
  unfold bind at 1. simpl.
  unfold bind at 1. rewrite axiosInstance_eq, requestInterceptor_eq. reflexivity.
Qed.

Lemma resume_fail (originalRequest : Config) (refreshError : Reason) (w : World) :
  resume originalRequest (RefreshFail refreshError) w =
    (Reject refreshError,
     mkWorld (delete "refreshToken" (delete "accessToken" (localStorage w)))
             false [] (inflight w)
             (microtasks w ++ map (fun prom => Catch prom refreshError) (failedQueue w))
             (trace w ++ [Navigate "/auth/sign-in"])).
Proof.
  unfold resume. unfold bind at 1. rewrite processQueue_eq.
  repeat (unfold bind at 1; simpl). reflexivity.
Qed.

(** ** One event *)

Lemma task_eq {A} (m : M A) (w : World) :
  task m w = (fst (m w), snd (checkpoint (snd (m w)))).
Proof.
  unfold task, bind. destruct (m w) as [a w1]. simpl.
  destruct (checkpoint w1) as [[] w2]. reflexivity.
Qed.

Lemma needsRefresh_dec (error : AxiosError) :
  needsRefresh error \/
  (status error <> Some 401%Z \/ _retry (config error) = true \/
     isAuthEndpoint (config error) = true).
Proof.
  unfold needsRefresh.
  destruct (decide (status error = Some 401%Z)); [|tauto].
  destruct (_retry (config error)); [tauto|].
  destruct (isAuthEndpoint (config error)); tauto.
Qed.

Lemma bind_take_inflight {A} (k : nat) (m : M A) (w : World) :
  (take_inflight k ;; m) w =
    m (mkWorld (localStorage w) (isRefreshing w) (failedQueue w)
               (delete k (inflight w)) (microtasks w) (trace w)).
Proof. reflexivity. Qed.

Section Exec.
Variable w : World.
Hypothesis quiet : microtasks w = [].

Lemma exec_propagate (error : AxiosError) :
  status error <> Some 401%Z \/ _retry (config error) = true \/
    isAuthEndpoint (config error) = true ->
  exec (Failed error) w = Some (Reject (ErrAxios error), w).
Proof.
  intros H. simpl. rewrite task_eq, onRejected_propagate by done. simpl.
  by rewrite checkpoint_nothing.
Qed.

Lemma exec_enqueue (error : AxiosError) :
  needsRefresh error -> isRefreshing w = true ->
  exec (Failed error) w =
    Some (Pending, mkWorld (localStorage w) (isRefreshing w)
                           (failedQueue w ++ [config error]) (inflight w)
                           [] (trace w)).
Proof.
  intros H Hw. simpl. rewrite task_eq, onRejected_enqueue by done. simpl.
  rewrite checkpoint_eq. simpl. rewrite quiet. simpl.
  by rewrite app_nil_r.
Qed.

Lemma exec_refresh (error : AxiosError) (refreshToken : string) :
  needsRefresh error -> isRefreshing w = false ->
  truthy (localStorage w !! "refreshToken") = Some refreshToken ->
  exec (Failed error) w =
    Some (Pending, mkWorld (localStorage w) true (failedQueue w)
                           (inflight w ++ [set_retry true (config error)])
                           [] (trace w ++ [PostRefresh refreshToken])).
Proof.
  intros H Hw Ht. simpl.
  rewrite task_eq, (onRejected_refresh _ _ refreshToken) by done. simpl.
  rewrite checkpoint_eq. simpl. rewrite quiet. simpl.
  by rewrite app_nil_r.
Qed.

Lemma exec_no_refreshToken (error : AxiosError) :
  needsRefresh error -> isRefreshing w = false ->
  truthy (localStorage w !! "refreshToken") = None ->
  exec (Failed error) w =
    Some (Reject (ErrAxios (mkAxiosError (set_retry true (config error))
                                         (status error) (message error))),
          mkWorld (delete "refreshToken" (delete "accessToken" (localStorage w)))
                  false [] (inflight w) []
                  (trace w ++ Navigate "/auth/sign-in" ::
                     map (fun prom => Rejected prom (ErrNew "No refresh token available"))
                         (failedQueue w))).
Proof.
  intros H Hw Ht. simpl.
  rewrite task_eq, onRejected_no_refreshToken by done. simpl.
  rewrite checkpoint_eq. simpl. rewrite quiet. simpl.
  rewrite map_map. simpl. by rewrite <- app_assoc.
Qed.

Lemma exec_settled_ok (k : nat) (originalRequest : Config) (newAccessToken : string) :
  inflight w !! k = Some originalRequest ->
  exec (Settled k (RefreshOk newAccessToken)) w =
    let storage := stored "accessToken" (Some newAccessToken) (localStorage w) in
    let sent := sentWith (storage !! "accessToken")
                  (set_Authorization ("Bearer " +:+ newAccessToken) originalRequest) in
    Some (Retry sent,
          mkWorld storage false [] (delete k (inflight w)) []
                  (trace w ++ Send sent ::
                     map (fun prom => Send (retryQueued (storage !! "accessToken") prom))
                         (failedQueue w))).
Proof.
  intros Hk. unfold exec. rewrite Hk, task_eq, bind_take_inflight, resume_ok.
  simpl. rewrite checkpoint_eq. simpl. rewrite quiet. simpl.
  rewrite map_map. simpl. by rewrite <- app_assoc.
Qed.

Lemma exec_settled_fail (k : nat) (originalRequest : Config) (refreshError : Reason) :
  inflight w !! k = Some originalRequest ->
  exec (Settled k (RefreshFail refreshError)) w =
    Some (Reject refreshError,
          mkWorld (delete "refreshToken" (delete "accessToken" (localStorage w)))
                  false [] (delete k (inflight w)) []
                  (trace w ++ Navigate "/auth/sign-in" ::
                     map (fun prom => Rejected prom refreshError) (failedQueue w))).
Proof.
  intros Hk. unfold exec. rewrite Hk, task_eq, bind_take_inflight, resume_fail.
  simpl. rewrite checkpoint_eq. simpl. rewrite quiet. simpl.
  rewrite map_map. simpl. by rewrite <- app_assoc.
Qed.
End Exec.

(** ** What holds between two events *)

Lemma exec_quiet (ev : Event) (w w' : World) (o : Outcome) :
  exec ev w = Some (o, w') -> microtasks w' = [].
Proof.
  destruct ev as [error | k r]; simpl.
  - rewrite task_eq, checkpoint_eq. intros H. by inversion H.
  - destruct (inflight w !! k); [|done].
    rewrite task_eq, checkpoint_eq. intros H. by inversion H.
Qed.

Lemma coherent_idle (w : World) :
  coherent w -> isRefreshing w = false -> idle w.
Proof. intros [_ [H | [H _]]] Hw; [done | congruence]. Qed.

Lemma coherent_refreshing (w : World) :
  coherent w -> isRefreshing w = true -> refreshing w.
Proof. intros [_ [[H _] | H]] Hw; [congruence | done]. Qed.

Lemma coherent_inflight (w : World) (k : nat) (originalRequest : Config) :
  coherent w -> inflight w !! k = Some originalRequest ->
  refreshing w /\ inflight w = [originalRequest] /\ k = 0.
Proof.
  intros [_ [(_ & Hi & _) | Hr]] Hk.
  - rewrite Hi in Hk. done.
  - split; [done|]. destruct Hr as (_ & [c Hc] & _). rewrite Hc in *.
    destruct k as [|k]; simpl in Hk; [|by destruct k].
    by inversion Hk.
Qed.

Lemma exec_coherent (ev : Event) (w w' : World) (o : Outcome) :
  coherent w -> exec ev w = Some (o, w') -> coherent w'.
Proof.
  intros Hc Hexec. split; [by eapply exec_quiet|].
  pose proof Hc as [Hq _].
  destruct ev as [error | k r].
  - destruct (needsRefresh_dec error) as [Hn | Hp].
    + destruct (isRefreshing w) eqn:Hw.
      * rewrite exec_enqueue in Hexec by done. inversion Hexec; subst; clear Hexec.
        right. destruct (coherent_refreshing w Hc Hw) as (_ & Hi & Ht).
        by split_and!.
      * destruct (coherent_idle w Hc Hw) as (_ & Hi & Hf).
        destruct (truthy (localStorage w !! "refreshToken")) as [rt|] eqn:Ht.
        -- rewrite (exec_refresh w Hq error rt) in Hexec by done.
           inversion Hexec; subst; clear Hexec. right. split_and!; simpl.
           ++ done.
           ++ rewrite Hi. by eexists.
           ++ rewrite Ht. by eexists.
        -- rewrite exec_no_refreshToken in Hexec by done.
           inversion Hexec; subst; clear Hexec. left. by split_and!.
    + rewrite exec_propagate in Hexec by done. inversion Hexec; subst.
      by destruct Hc.
  - destruct (inflight w !! k) as [c|] eqn:Hk; [|by simpl in Hexec; rewrite Hk in Hexec].
    destruct (coherent_inflight w k c Hc Hk) as (_ & Hi & ->).
    destruct r as [a | e].
    + rewrite (exec_settled_ok w Hq 0 c a Hk) in Hexec.
      inversion Hexec; subst; clear Hexec. left. rewrite Hi. by split_and!.
    + rewrite (exec_settled_fail w Hq 0 c e Hk) in Hexec.
      inversion Hexec; subst; clear Hexec. left. rewrite Hi. by split_and!.
Qed.

Lemma run_coherent (evs : list Event) (w w' : World) (os : list Outcome) :
  coherent w -> run evs w = Some (os, w') -> coherent w'.
Proof.
  revert w os; induction evs as [|ev evs IH]; intros w os Hc; simpl.
  - intros H. by inversion H; subst.
  - destruct (exec ev w) as [[o w1]|] eqn:He; [|done].
    destruct (run evs w1) as [[os1 w2]|] eqn:Hr; [|done].
    intros H. inversion H; subst. eapply IH; [|done]. by eapply exec_coherent.
Qed.

Lemma initial_coherent (storage : gmap string string) : coherent (initial storage).
Proof. split; [done|]. by left. Qed.

Lemma reachable_coherent (w : World) : reachable w -> coherent w.
Proof.
  intros (storage & evs & os & H).
  eapply run_coherent; [apply initial_coherent | done].
Qed.

Lemma run_app (evs1 evs2 : list Event) (w : World) :
  run (evs1 ++ evs2) w =
    match run evs1 w with
    | Some (os1, w1) =>
        match run evs2 w1 with
        | Some (os2, w2) => Some (os1 ++ os2, w2)
        | None => None
        end
    | None => None
    end.
Proof.
  revert w; induction evs1 as [|ev evs1 IH]; intros w; simpl.
  - by destruct (run evs2 w) as [[os2 w2]|].
  - destruct (exec ev w) as [[o w1]|]; [|done]. rewrite IH.
    destruct (run evs1 w1) as [[os1 w2]|]; [|done].
    by destruct (run evs2 w2) as [[os2 w3]|].
Qed.

(** ** Exempt endpoints and failures that are not authentication failures *)

Lemma isAuthEndpoint_substring (originalRequest : Config) (u path pre post : string) :
  url originalRequest = Some u ->
  path ∈ ["/auth/signin"; "/auth/register"; "/auth/token/refresh"] ->
  u = pre +:+ path +:+ post ->
  isAuthEndpoint originalRequest = true.
Proof.
  intros Hu Hp Hs. unfold isAuthEndpoint. rewrite Hu.
  assert (Hi : includes u path = true) by (apply includes_spec; eauto).
  repeat (apply elem_of_cons in Hp as [-> | Hp]); [| | |by apply elem_of_nil in Hp];
    rewrite Hi; by rewrite ?orb_true_r.
Qed.

(** C3: a call whose url contains "/auth/signin", "/auth/register" or
    "/auth/token/refresh" and that fails with status 401 is rejected with its
    own error; the flag, the queue, the storage and the trace (no refresh
    call, no navigation) stay as they were. *)
Theorem exempt_endpoint_bypasses_refresh
    (error : AxiosError) (w : World) (u path pre post : string) :
  status error = Some 401%Z ->
  url (config error) = Some u ->
  path ∈ ["/auth/signin"; "/auth/register"; "/auth/token/refresh"] ->
  u = pre +:+ path +:+ post ->
  onRejected error w = (Reject (ErrAxios error), w) /\
  (microtasks w = [] -> exec (Failed error) w = Some (Reject (ErrAxios error), w)).
Proof.
  intros _ Hu Hp Hs.
  pose proof (isAuthEndpoint_substring _ _ _ _ _ Hu Hp Hs) as Ha.
  split.
  - apply onRejected_propagate. tauto.
  - intros Hq. apply exec_propagate; tauto.
Qed.

Lemma exempt_endpoint_bypasses_refresh_witness :
  onRejected (unauthorized (call "/api/auth/signin/")) (initial signedIn) =
    (Reject (ErrAxios (unauthorized (call "/api/auth/signin/"))), initial signedIn).
Proof.
  apply (exempt_endpoint_bypasses_refresh
           (unauthorized (call "/api/auth/signin/")) (initial signedIn)
           "/api/auth/signin/" "/auth/signin" "/api" "/").
  - reflexivity.
  - reflexivity.
  - apply list_elem_of_here.
  - reflexivity.
Defined.

(** C9: an error whose status is not 401, a network error included, is
    rejected as it is, and the state and the trace stay as they were; a
    successful response is returned as it is. *)
Theorem non_auth_failure_propagates (error : AxiosError) (w : World) :
  status error <> Some 401%Z ->
  onRejected error w = (Reject (ErrAxios error), w) /\
  (microtasks w = [] -> exec (Failed error) w = Some (Reject (ErrAxios error), w)) /\
  (forall (Response : Type) (response : Response), onFulfilled response = response).
Proof.
  intros Hs. split_and!.
  - apply onRejected_propagate. tauto.
  - intros Hq. apply exec_propagate; tauto.
  - reflexivity.
Qed.

Lemma non_auth_failure_propagates_witness :
  onRejected (mkAxiosError (call "/posts/") None "Network Error") (initial signedIn) =
    (Reject (ErrAxios (mkAxiosError (call "/posts/") None "Network Error")),
     initial signedIn).
Proof.
  apply (non_auth_failure_propagates
           (mkAxiosError (call "/posts/") None "Network Error") (initial signedIn)).
  discriminate.
Defined.

(** ** The session-terminal outcomes *)

Lemma refreshCalls_app (t1 t2 : list Action) :
  refreshCalls (t1 ++ t2) = refreshCalls t1 + refreshCalls t2.
Proof. unfold refreshCalls. by rewrite filter_app, length_app. Qed.

Lemma cleared_lookup (storage : gmap string string) :
  delete "refreshToken" (delete "accessToken" storage) !! "accessToken" = None /\
  delete "refreshToken" (delete "accessToken" storage) !! "refreshToken" = None.
Proof.
  split.
  - rewrite lookup_delete_ne by done. apply lookup_delete_eq.
  - apply lookup_delete_eq.
Qed.

Lemma refreshCalls_quiet (t l : list Action) :
  Forall (fun a => isPostRefresh a = false) l ->
  refreshCalls (t ++ l) = refreshCalls t.
Proof.
  intros H. rewrite refreshCalls_app.
  enough (refreshCalls l = 0) by lia.
  induction H as [|a l Ha _ IH]; [done|].
  unfold refreshCalls in *. rewrite filter_cons. by rewrite Ha.
Qed.

(** C8, as amended: a 401 on a call that is neither exempt nor marked, with
    no refresh in progress and no refresh token stored, removes both tokens,
    rejects every queued call with the error "No refresh token available",
    navigates to "/auth/sign-in", issues no refresh call, leaves the flag
    false, and rejects the call itself with its own 401 error (its request
    now marked). *)
Theorem no_refresh_token_ends_session (error : AxiosError) (w : World) :
  needsRefresh error ->
  isRefreshing w = false ->
  microtasks w = [] ->
  truthy (fst (getRefreshToken w)) = None ->
  exists w',
    exec (Failed error) w =
      Some (Reject (ErrAxios (mkAxiosError (set_retry true (config error))
                                           (status error) (message error))), w') /\
    signedOut w' /\
    isRefreshing w' = false /\
    failedQueue w' = [] /\
    inflight w' = inflight w /\
    trace w' = trace w ++ Navigate "/auth/sign-in" ::
                 map (fun prom => Rejected prom (ErrNew "No refresh token available"))
                     (failedQueue w) /\
    refreshCalls (trace w') = refreshCalls (trace w).
Proof.
  intros Hn Hw Hq Ht. simpl in Ht. eexists. split.
  - by apply exec_no_refreshToken.
  - simpl. split_and!; try done.
    + apply cleared_lookup.
    + apply refreshCalls_quiet. constructor; [done|].
      apply Forall_map. by apply Forall_true.
Qed.

(** In a state the client can reach, a missing refresh token means that no
    refresh is in progress and nothing is queued. *)
Lemma no_refresh_token_is_idle (w : World) :
  reachable w ->
  truthy (fst (getRefreshToken w)) = None ->
  isRefreshing w = false /\ microtasks w = [] /\ failedQueue w = [].
Proof.
  intros [Hq [(Hw & _ & Hf) | (_ & _ & [rt Hrt])]]%reachable_coherent Ht.
  - done.
  - simpl in Ht. congruence.
Qed.

Lemma needsRefresh_call (u : string) :
  isAuthEndpoint (call u) = false -> needsRefresh (unauthorized (call u)).
Proof. intros H. by split_and!. Qed.

Lemma no_refresh_token_ends_session_witness :
  exists w',
    exec (Failed (unauthorized (call "/posts/"))) (initial accessOnly) =
      Some (Reject (ErrAxios (unauthorized (set_retry true (call "/posts/")))), w') /\
    signedOut w' /\
    isRefreshing w' = false /\
    failedQueue w' = [] /\
    inflight w' = [] /\
    trace w' = [Navigate "/auth/sign-in"] /\
    refreshCalls (trace w') = 0.
Proof.
  apply (no_refresh_token_ends_session
           (unauthorized (call "/posts/")) (initial accessOnly)).
  - apply needsRefresh_call. reflexivity.
  - reflexivity.
  - reflexivity.
  - reflexivity.
Defined.

(** C8 as stated fails on the error the call itself is rejected with: the
    handler returns [Promise.reject(error)], the 401 error it was invoked
    with, and only the queued calls get "No refresh token available". *)
Lemma no_refresh_token_rejects_with_the_401_error :
  needsRefresh (unauthorized (call "/posts/")) /\
  isRefreshing (initial accessOnly) = false /\
  fst (getRefreshToken (initial accessOnly)) = None /\
  fst <$> exec (Failed (unauthorized (call "/posts/"))) (initial accessOnly) =
    Some (Reject (ErrAxios (unauthorized (set_retry true (call "/posts/"))))) /\
  Reject (ErrAxios (unauthorized (set_retry true (call "/posts/")))) <>
    Reject (ErrNew "No refresh token available").
Proof.
  split_and!; [by apply needsRefresh_call | reflexivity | reflexivity | | discriminate].
  rewrite exec_no_refreshToken; [reflexivity | reflexivity | | reflexivity | reflexivity].
  by apply needsRefresh_call.
Qed.

Lemma signedOut_stays (ev : Event) (w w' : World) (o : Outcome) :
  coherent w -> idle w -> signedOut w ->
  exec ev w = Some (o, w') -> idle w' /\ signedOut w'.
Proof.
  intros Hc Hi [Ha Hr] Hexec. pose proof Hc as [Hq _].
  pose proof Hi as (Hw & Hin & Hf). simpl in Ha, Hr.
  destruct ev as [error | k r].
  - destruct (needsRefresh_dec error) as [Hn | Hp].
    + rewrite exec_no_refreshToken in Hexec; [|done..|by rewrite Hr].
      inversion Hexec; subst; clear Hexec. split; [by split_and!|].
      apply cleared_lookup.
    + rewrite exec_propagate in Hexec by done. by inversion Hexec; subst.
  - simpl in Hexec. by rewrite Hin in Hexec.
Qed.

Lemma signedOut_run (evs : list Event) (w w' : World) (os : list Outcome) :
  coherent w -> idle w -> signedOut w ->
  run evs w = Some (os, w') -> signedOut w'.
Proof.
  revert w os; induction evs as [|ev evs IH]; intros w os Hc Hi Hs; simpl.
  - intros H. by inversion H; subst.
  - destruct (exec ev w) as [[o w1]|] eqn:He; [|done].
    destruct (run evs w1) as [[os1 w2]|] eqn:Hr; [|done].
    intros H. inversion H; subst.
    destruct (signedOut_stays ev w w1 o Hc Hi Hs He) as [Hi1 Hs1].
    eapply IH; [|done..]. by eapply exec_coherent.
Qed.

(** C4: from a state the client can reach, once a refresh call has failed or
    a 401 has found no refresh token, both getters return null, after that
    event and after every later event of the coordinator: no later state has
    one token readable and the other removed. *)
Theorem credentials_cleared_together
    (w w' w'' : World) (ev : Event) (o : Outcome)
    (evs : list Event) (os : list Outcome) :
  reachable w ->
  sessionEnds w ev ->
  exec ev w = Some (o, w') ->
  run evs w' = Some (os, w'') ->
  fst (getAccessToken w'') = None /\ fst (getRefreshToken w'') = None.
Proof.
  intros Hreach Hend Hexec Hrun.
  pose proof (reachable_coherent w Hreach) as Hc. pose proof Hc as [Hq _].
  assert (Hc' : coherent w') by (by eapply exec_coherent).
  enough (idle w' /\ signedOut w') as [Hi Hs] by (by eapply signedOut_run).
  destruct ev as [error | k [a | e]]; simpl in Hend; [| done |].
  - destruct Hend as [Hn Ht].
    destruct (isRefreshing w) eqn:Hw.
    + destruct (coherent_refreshing w Hc Hw) as (_ & _ & [rt Hrt]). congruence.
    + destruct (coherent_idle w Hc Hw) as (_ & Hin & Hf).
      rewrite exec_no_refreshToken in Hexec by done.
      inversion Hexec; subst; clear Hexec. split; [by split_and! | apply cleared_lookup].
  - destruct (inflight w !! k) as [c|] eqn:Hk; [|by simpl in Hexec; rewrite Hk in Hexec].
    destruct (coherent_inflight w k c Hc Hk) as (_ & Hin & ->).
    rewrite (exec_settled_fail w Hq 0 c e Hk) in Hexec.
    inversion Hexec; subst; clear Hexec. rewrite Hin.
    split; [by split_and! | apply cleared_lookup].
Qed.

Lemma credentials_cleared_together_witness :
  fst (getAccessToken
         (mkWorld ∅ false [] [] []
                  [PostRefresh "ref1"; Navigate "/auth/sign-in";
                   Navigate "/auth/sign-in"])) = None /\
  fst (getRefreshToken
         (mkWorld ∅ false [] [] []
                  [PostRefresh "ref1"; Navigate "/auth/sign-in";
                   Navigate "/auth/sign-in"])) = None.
Proof.
  apply (credentials_cleared_together
           (mkWorld signedIn true [] [set_retry true (call "/posts/")] []
                    [PostRefresh "ref1"])
           (mkWorld ∅ false [] [] [] [PostRefresh "ref1"; Navigate "/auth/sign-in"])
           (mkWorld ∅ false [] [] []
                    [PostRefresh "ref1"; Navigate "/auth/sign-in";
                     Navigate "/auth/sign-in"])
           (Settled 0 (RefreshFail (ErrNew "Request failed with status code 401")))
           (Reject (ErrNew "Request failed with status code 401"))
           [Failed (unauthorized (call "/videos/"))]
           [Reject (ErrAxios (unauthorized (set_retry true (call "/videos/"))))]).
  - exists signedIn, [Failed (unauthorized (call "/posts/"))], [Pending].
    vm_compute. reflexivity.
  - exact I.
  - vm_compute. reflexivity.
  - vm_compute. reflexivity.
Defined.

(** ** One refresh call at a time *)

Lemma run_enqueue (errors : list AxiosError) (w : World) :
  microtasks w = [] -> isRefreshing w = true ->
  Forall needsRefresh errors ->
  run (Failed <$> errors) w =
    Some (replicate (length errors) Pending,
          mkWorld (localStorage w) true (failedQueue w ++ (config <$> errors))
                  (inflight w) [] (trace w)).
Proof.
  revert w; induction errors as [|error errors IH]; intros w Hq Hw Hall.
  - simpl. rewrite app_nil_r. destruct w; simpl in *; by subst.
  - apply Forall_cons in Hall as [Hn Hall].
    change (run (Failed <$> error :: errors) w)
      with (match exec (Failed error) w with
            | Some (o, w') =>
                match run (Failed <$> errors) w' with
                | Some (os, w'') => Some (o :: os, w'')
                | None => None
                end
            | None => None
            end).
    rewrite exec_enqueue by done. rewrite IH by done. simpl.
    by rewrite <- app_assoc.
Qed.

(** At most one handler is suspended on a refresh call, and one is exactly
    when the flag is set. *)
Lemma one_refresh_in_flight (w : World) :
  reachable w ->
  length (inflight w) <= 1 /\
  (isRefreshing w = true <-> inflight w <> []) /\
  (isRefreshing w = false -> failedQueue w = []).
Proof.
  intros [_ [(Hw & Hi & Hf) | (Hw & [c Hi] & _)]]%reachable_coherent.
  - rewrite Hw, Hi. split_and!; [simpl; lia | split; done | done].
  - rewrite Hw, Hi. split_and!; [simpl; lia | split; done | done].
Qed.

(** C1, as amended: among calls that are neither exempt nor marked and get a
    401 while no refresh is in progress and a refresh token is stored, the
    first issues the one refresh call and every other one is pushed onto
    failedQueue; none is settled before the refresh call settles, and when
    it does the queue is emptied without another refresh call.  Whenever the
    flag is set, such a 401 only pushes onto failedQueue. *)
Theorem single_refresh_in_flight
    (w : World) (first : AxiosError) (rest : list AxiosError)
    (refreshToken : string) :
  coherent w ->
  isRefreshing w = false ->
  truthy (fst (getRefreshToken w)) = Some refreshToken ->
  needsRefresh first ->
  Forall needsRefresh rest ->
  let w1 := mkWorld (localStorage w) true (config <$> rest)
                    [set_retry true (config first)] []
                    (trace w ++ [PostRefresh refreshToken]) in
  run (Failed <$> first :: rest) w =
    Some (replicate (S (length rest)) Pending, w1) /\
  refreshCalls (trace w1) = S (refreshCalls (trace w)) /\
  (forall r, exists o w2,
     exec (Settled 0 r) w1 = Some (o, w2) /\
     idle w2 /\
     refreshCalls (trace w2) = S (refreshCalls (trace w)) /\
     length (trace w2) = length (trace w1) + 1 + length rest) /\
  (forall w' error,
     needsRefresh error -> isRefreshing w' = true ->
     onRejected error w' =
       (Pending, mkWorld (localStorage w') (isRefreshing w')
                         (failedQueue w' ++ [config error]) (inflight w')
                         (microtasks w') (trace w'))).
Proof.
  intros Hc Hw Ht Hn Hall w1. simpl in Ht.
  pose proof Hc as [Hq _].
  destruct (coherent_idle w Hc Hw) as (_ & Hi & Hf).
  assert (Hcalls : refreshCalls (trace w1) = S (refreshCalls (trace w))).
  { unfold w1. simpl. rewrite refreshCalls_app. simpl. unfold refreshCalls at 2.
    simpl. lia. }
  split_and!.
  - change (run (Failed <$> first :: rest) w)
      with (match exec (Failed first) w with
            | Some (o, w') =>
                match run (Failed <$> rest) w' with
                | Some (os, w'') => Some (o :: os, w'')
                | None => None
                end
            | None => None
            end).
    rewrite (exec_refresh w Hq first refreshToken) by done.
    rewrite run_enqueue by done. simpl. by rewrite Hi, Hf.
  - done.
  - intros [a | e].
    + eexists _, _. split; [exact (exec_settled_ok w1 eq_refl 0 _ a eq_refl)|].
      cbv zeta. cbn [trace isRefreshing failedQueue inflight].
      split_and!; [by split_and! | |].
      * rewrite refreshCalls_quiet; [done|].
        apply Forall_cons. split; [done|]. apply Forall_map. by apply Forall_true.
      * rewrite !length_app. simpl. rewrite !length_map. lia.
    + eexists _, _. split; [exact (exec_settled_fail w1 eq_refl 0 _ e eq_refl)|].
      cbn [trace isRefreshing failedQueue inflight].
      split_and!; [by split_and! | |].
      * rewrite refreshCalls_quiet; [done|].
        apply Forall_cons. split; [done|]. apply Forall_map. by apply Forall_true.
      * rewrite !length_app. simpl. rewrite !length_map. lia.
  - intros w' error Hn' Hw'. by apply onRejected_enqueue.
Qed.

Lemma single_refresh_in_flight_witness :
  coherent (initial signedIn) /\
  truthy (fst (getRefreshToken (initial signedIn))) = Some "ref1" /\
  run [Failed (unauthorized (call "/posts/")); Failed (unauthorized (call "/videos/"))]
      (initial signedIn) =
    Some ([Pending; Pending],
          mkWorld signedIn true [call "/videos/"] [set_retry true (call "/posts/")] []
                  [PostRefresh "ref1"]).
Proof.
  split; [apply initial_coherent|]. split; [reflexivity|].
  destruct (single_refresh_in_flight (initial signedIn)
              (unauthorized (call "/posts/")) [unauthorized (call "/videos/")] "ref1")
    as [H _].
  - apply initial_coherent.
  - reflexivity.
  - reflexivity.
  - apply needsRefresh_call. reflexivity.
  - constructor; [apply needsRefresh_call; reflexivity | constructor].
  - exact H.
Defined.

(** C1 as stated fails when no refresh token is stored: two calls get a 401
    while no refresh is in progress, no refresh call is issued, nothing is
    queued, and each call is rejected at once. *)
Lemma no_refresh_call_without_refresh_token :
  isRefreshing (initial accessOnly) = false /\
  Forall needsRefresh
    [unauthorized (call "/posts/"); unauthorized (call "/videos/")] /\
  exists w',
    run [Failed (unauthorized (call "/posts/")); Failed (unauthorized (call "/videos/"))]
        (initial accessOnly) =
      Some ([Reject (ErrAxios (unauthorized (set_retry true (call "/posts/"))));
             Reject (ErrAxios (unauthorized (set_retry true (call "/videos/"))))], w') /\
    refreshCalls (trace w') = 0 /\
    failedQueue w' = [].
Proof.
  split; [reflexivity|]. split.
  - repeat (constructor; [apply needsRefresh_call; reflexivity|]). constructor.
  - eexists. split; [vm_compute; reflexivity|]. split; reflexivity.
Qed.

(** ** The token of a successful refresh *)

Lemma Authorization_set (value : string) (c : Config) :
  is_Some (headers c) -> Authorization (set_Authorization value c) = Some value.
Proof.
  intros [h Hh]. unfold Authorization, set_Authorization. rewrite Hh. simpl.
  apply lookup_insert_eq.
Qed.

Lemma set_Authorization_twice (v1 v2 : string) (c : Config) :
  set_Authorization v2 (set_Authorization v1 c) = set_Authorization v2 c.
Proof.
  unfold set_Authorization. destruct (headers c) as [h|] eqn:Hh; simpl.
  - by rewrite insert_insert_eq.
  - by rewrite Hh.
Qed.

Lemma sentWith_token (t value : string) (c : Config) :
  t <> "" ->
  sentWith (Some t) (set_Authorization value c) =
    set_Authorization ("Bearer " +:+ t) c.
Proof.
  intros Ht. unfold sentWith. rewrite truthy_Some by done.
  destruct (headers (set_Authorization value c)) eqn:Hh.
  - apply set_Authorization_twice.
  - unfold set_Authorization in *. by destruct (headers c) eqn:Hc.
Qed.

Lemma retryQueued_token (t : string) (c : Config) :
  t <> "" -> retryQueued (Some t) c = set_Authorization ("Bearer " +:+ t) c.
Proof. intros Ht. unfold retryQueued. by apply sentWith_token. Qed.

Lemma stored_lookup (key t : string) (storage : gmap string string) :
  t <> "" -> stored key (Some t) storage !! key = Some t.
Proof.
  intros Ht. unfold stored. rewrite truthy_Some by done. apply lookup_insert_eq.
Qed.

(** C5: when the refresh call succeeds with a non-empty access token, that
    token is the stored one afterwards; the original call and every queued
    call are sent again, each with Authorization "Bearer " followed by the
    new token; and so is any call sent from the resulting state.  (The calls
    have the headers object of their type.) *)
Theorem refreshed_token_is_attached
    (w w' : World) (k : nat) (newAccessToken : string) (o : Outcome) :
  reachable w ->
  newAccessToken <> "" ->
  Forall (fun c => is_Some (headers c)) (inflight w ++ failedQueue w) ->
  exec (Settled k (RefreshOk newAccessToken)) w = Some (o, w') ->
  let bearer := "Bearer " +:+ newAccessToken in
  fst (getAccessToken w') = Some newAccessToken /\
  (exists originalRequest,
     inflight w = [originalRequest] /\
     o = Retry (set_Authorization bearer originalRequest) /\
     trace w' = trace w ++
       Send (set_Authorization bearer originalRequest) ::
       map (fun prom => Send (set_Authorization bearer prom)) (failedQueue w)) /\
  (forall a, a ∈ drop (length (trace w)) (trace w') ->
     exists sent, a = Send sent /\ Authorization sent = Some bearer) /\
  (forall c, is_Some (headers c) ->
     Authorization (fst (requestInterceptor c w')) = Some bearer).
Proof.
  intros Hreach Ht Hh Hexec bearer.
  pose proof (reachable_coherent w Hreach) as Hc. pose proof Hc as [Hq _].
  destruct (inflight w !! k) as [c0|] eqn:Hk; [|by simpl in Hexec; rewrite Hk in Hexec].
  destruct (coherent_inflight w k c0 Hc Hk) as (_ & Hin & ->).
  rewrite (exec_settled_ok w Hq 0 c0 newAccessToken Hk) in Hexec.
  cbv zeta in Hexec. rewrite stored_lookup in Hexec by done.
  rewrite sentWith_token in Hexec by done.
  rewrite (map_ext _ (fun prom => Send (set_Authorization bearer prom))) in Hexec
    by (intros prom; by rewrite retryQueued_token).
  inversion Hexec; subst o w'; clear Hexec.
  rewrite Hin in Hh. apply Forall_cons in Hh as [Hh0 Hhq].
  split_and!.
  - simpl. by apply stored_lookup.
  - by exists c0.
  - cbn [trace]. intros a Ha. rewrite drop_app_length in Ha.
    apply elem_of_cons in Ha as [-> | Ha].
    + eexists. split; [done|]. by apply Authorization_set.
    + apply list_elem_of_fmap in Ha as (prom & -> & Hprom).
      eexists. split; [done|]. apply Authorization_set.
      by eapply Forall_forall in Hhq.
  - intros c Hcq. rewrite requestInterceptor_eq. cbn [fst localStorage].
    rewrite stored_lookup by done. unfold sentWith.
    rewrite truthy_Some by done. destruct Hcq as [h Hcq]. rewrite Hcq.
    apply Authorization_set. by rewrite Hcq.
Qed.

Lemma refreshingTwo_reachable : reachable refreshingTwo.
Proof.
  exists signedIn,
    [Failed (unauthorized (call "/posts/")); Failed (unauthorized (call "/videos/"))],
    [Pending; Pending].
  vm_compute. reflexivity.
Qed.

Lemma refreshed_token_is_attached_witness :
  exec (Settled 0 (RefreshOk "tok2")) refreshingTwo =
    Some (Retry (set_Authorization "Bearer tok2" (set_retry true (call "/posts/"))),
          refreshedTwo) /\
  fst (getAccessToken refreshedTwo) = Some "tok2" /\
  (forall a, a ∈ drop 1 (trace refreshedTwo) ->
     exists sent, a = Send sent /\ Authorization sent = Some "Bearer tok2").
Proof.
  assert (Hexec : exec (Settled 0 (RefreshOk "tok2")) refreshingTwo =
            Some (Retry (set_Authorization "Bearer tok2"
                           (set_retry true (call "/posts/"))), refreshedTwo))
    by (vm_compute; reflexivity).
  split; [exact Hexec|].
  destruct (refreshed_token_is_attached refreshingTwo refreshedTwo 0 "tok2"
              (Retry (set_Authorization "Bearer tok2" (set_retry true (call "/posts/"))))
              refreshingTwo_reachable) as (Hget & _ & Hsent & _).
  - discriminate.
  - repeat constructor; by eexists.
  - exact Hexec.
  - split; [exact Hget | exact Hsent].
Defined.

(** ** The queue *)

Lemma exec_Settled_queue (w w' : World) (k : nat) (r : RefreshResult) (o : Outcome) :
  exec (Settled k r) w = Some (o, w') -> failedQueue w' = [].
Proof.
  unfold exec. destruct (inflight w !! k) as [c|]; [|done].
  rewrite task_eq, bind_take_inflight, checkpoint_eq. intros H.
  inversion H; subst; clear H. cbn [failedQueue].
  destruct r; [by rewrite resume_ok | by rewrite resume_fail].
Qed.

Lemma exec_Failed_queue (w w' : World) (error : AxiosError) (o : Outcome) :
  exec (Failed error) w = Some (o, w') ->
  length (failedQueue w) < length (failedQueue w') ->
  isRefreshing w = true /\ isRefreshing w' = true /\
  failedQueue w' = failedQueue w ++ [config error].
Proof.
  unfold exec. rewrite task_eq, checkpoint_eq. intros H.
  inversion H; subst; clear H. cbn [failedQueue isRefreshing].
  destruct (needsRefresh_dec error) as [Hn | Hp].
  - destruct (isRefreshing w) eqn:Hw.
    + rewrite onRejected_enqueue by done. simpl. by rewrite Hw.
    + destruct (truthy (localStorage w !! "refreshToken")) as [rt|] eqn:Ht.
      * rewrite (onRejected_refresh _ _ rt) by done. simpl. lia.
      * rewrite onRejected_no_refreshToken by done. simpl. lia.
  - rewrite onRejected_propagate by done. simpl. lia.
Qed.

(** C6: when the refresh call settles, failedQueue is emptied and the queued
    calls are settled in the order they were queued in, those queued before
    and those queued meanwhile: sent again on success, rejected with the
    refresh error on failure.  Every settling empties the queue, and the
    queue gets longer only by a push at its end while the flag is set. *)
Theorem queue_drained_in_order
    (w : World) (errors : list AxiosError) (r : RefreshResult) :
  reachable w ->
  isRefreshing w = true ->
  Forall needsRefresh errors ->
  (exists os w' first,
     run ((Failed <$> errors) ++ [Settled 0 r]) w = Some (os, w') /\
     failedQueue w' = [] /\
     isRefreshing w' = false /\
     trace w' = trace w ++ first ::
       map (fun prom =>
              match r with
              | RefreshOk _ => Send (retryQueued (fst (getAccessToken w')) prom)
              | RefreshFail refreshError => Rejected prom refreshError
              end)
           (failedQueue w ++ (config <$> errors))) /\
  (forall w0 k r0 o w1,
     exec (Settled k r0) w0 = Some (o, w1) -> failedQueue w1 = []) /\
  (forall w0 ev o w1,
     exec ev w0 = Some (o, w1) ->
     length (failedQueue w0) < length (failedQueue w1) ->
     isRefreshing w0 = true /\ isRefreshing w1 = true /\
     exists error, ev = Failed error /\
                   failedQueue w1 = failedQueue w0 ++ [config error]).
Proof.
  intros Hreach Hw Hall.
  pose proof (reachable_coherent w Hreach) as Hc. pose proof Hc as [Hq _].
  destruct (coherent_refreshing w Hc Hw) as (_ & [c0 Hin] & _).
  split_and!.
  - rewrite run_app, run_enqueue by done.
    set (w1 := mkWorld (localStorage w) true (failedQueue w ++ (config <$> errors))
                       (inflight w) [] (trace w)).
    assert (Hk : inflight w1 !! 0 = Some c0) by (simpl; by rewrite Hin).
    destruct r as [a | e]; cbn [run].
    + rewrite (exec_settled_ok w1 eq_refl 0 c0 a Hk). cbv zeta.
      eexists _, _, _. split; [reflexivity|]. by split_and!.
    + rewrite (exec_settled_fail w1 eq_refl 0 c0 e Hk).
      eexists _, _, _. split; [reflexivity|]. by split_and!.
  - intros w0 k r0 o w1. apply exec_Settled_queue.
  - intros w0 [error | k r0] o w1 Hexec Hlen.
    + destruct (exec_Failed_queue w0 w1 error o Hexec Hlen) as (? & ? & ?).
      split_and!; [done..|]. by exists error.
    + apply exec_Settled_queue in Hexec. rewrite Hexec in Hlen. simpl in Hlen. lia.
Qed.

Lemma queue_drained_in_order_witness :
  exists os w' first,
    run [Failed (unauthorized (call "/saved/")); Settled 0 (RefreshFail (ErrNew "expired"))]
        refreshingTwo = Some (os, w') /\
    failedQueue w' = [] /\
    isRefreshing w' = false /\
    trace w' = [PostRefresh "ref1"; first;
                Rejected (call "/videos/") (ErrNew "expired");
                Rejected (call "/saved/") (ErrNew "expired")].
Proof.
  destruct (queue_drained_in_order refreshingTwo [unauthorized (call "/saved/")]
              (RefreshFail (ErrNew "expired")) refreshingTwo_reachable)
    as [(os & w' & first & H) _].
  - reflexivity.
  - constructor; [apply needsRefresh_call; reflexivity | constructor].
  - exists os, w', first. exact H.
Defined.

(** ** One retry per call *)

(** The call that started the refresh is sent again marked, and a marked call
    that gets a 401 is rejected with it. *)
Lemma marked_call_is_not_retried_again (error : AxiosError) (w : World) :
  _retry (config error) = true ->
  onRejected error w = (Reject (ErrAxios error), w).
Proof. intros H. apply onRejected_propagate. tauto. Qed.

Lemma retried_original_is_marked (originalRequest : Config) (token : option string)
    (value : string) :
  _retry (sentWith token (set_Authorization value (set_retry true originalRequest))) = true.
Proof.
  unfold sentWith, set_Authorization, set_retry. simpl.
  destruct (truthy token), (headers originalRequest); reflexivity.
Qed.

(** The mark is not set on a queued call: what it sends again is unmarked. *)
Lemma retried_queued_keeps_mark (originalRequest : Config) (token : option string) :
  _retry (retryQueued token originalRequest) = _retry originalRequest.
Proof.
  unfold retryQueued, sentWith, set_Authorization.
  destruct (headers originalRequest) eqn:Hh; simpl; rewrite ?Hh;
    destruct (truthy token); simpl; rewrite ?Hh; reflexivity.
Qed.

(** C2 fails on a queued call.  "/videos/" gets a 401 while the refresh
    started by "/posts/" is in progress and is queued; the refresh succeeds
    and "/videos/" is sent again, unmarked; its second 401 is not rejected
    but starts a second refresh call, after which "/videos/" is sent a third
    time. *)
Theorem queued_call_is_retried_twice :
  run (take 3 secondFailure) (initial signedIn) =
    Some ([Pending; Pending;
           Retry (set_Authorization "Bearer tok2" (set_retry true (call "/posts/")))],
          refreshedTwo) /\
  Send retriedVideos ∈ trace refreshedTwo /\
  _retry retriedVideos = false /\
  exists os w5,
    run secondFailure (initial signedIn) = Some (os, w5) /\
    os !! 3 = Some Pending /\
    refreshCalls (trace w5) = 2 /\
    filter (sentTo "/videos/") (trace w5) =
      [Send retriedVideos;
       Send (set_Authorization "Bearer tok3" (set_retry true (call "/videos/")))].
Proof.
  split; [vm_compute; reflexivity|].
  split; [do 2 apply list_elem_of_further; apply list_elem_of_here|].
  split; [reflexivity|].
  eexists _, _. split; [vm_compute; reflexivity|].
  split; [reflexivity|]. split; vm_compute; reflexivity.
Qed.

(** * Further properties of the client *)

(** ** The transition table is what the handlers do *)

Lemma exec_transition (w w' : World) (ev : Event) (o : Outcome) :
  microtasks w = [] ->
  exec ev w = Some (o, w') -> transition w ev o w'.
Proof.
  intros Hq Hexec. destruct ev as [error | k r].
  - destruct (needsRefresh_dec error) as [Hn | Hp].
    + destruct (isRefreshing w) eqn:Hw.
      * rewrite exec_enqueue in Hexec by done. inversion Hexec; subst.
        rewrite Hw. by constructor.
      * destruct (truthy (localStorage w !! "refreshToken")) as [rt|] eqn:Ht.
        -- rewrite (exec_refresh w Hq error rt) in Hexec by done.
           inversion Hexec; subst. by constructor.
        -- rewrite exec_no_refreshToken in Hexec by done.
           inversion Hexec; subst. by constructor.
    + rewrite exec_propagate in Hexec by done. inversion Hexec; subst.
      by constructor.
  - destruct (inflight w !! k) as [c|] eqn:Hk; [|by simpl in Hexec; rewrite Hk in Hexec].
    destruct r as [a | e].
    + rewrite (exec_settled_ok w Hq k c a Hk) in Hexec. cbv zeta in Hexec.
      inversion Hexec; subst. exact (t_settled_ok w k c a Hk).
    + rewrite (exec_settled_fail w Hq k c e Hk) in Hexec.
      inversion Hexec; subst. exact (t_settled_fail w k c e Hk).
Qed.

Lemma transition_exec (w w' : World) (ev : Event) (o : Outcome) :
  microtasks w = [] ->
  transition w ev o w' -> exec ev w = Some (o, w').
Proof.
  intros Hq Ht.
  destruct Ht as [w error Hp | w error Hn Hw | w error rt Hn Hw Hrt
                 | w error Hn Hw Hrt | w k c a Hk | w k c e Hk].
  - by apply exec_propagate.
  - rewrite exec_enqueue by done. by rewrite Hw.
  - by apply exec_refresh.
  - by apply exec_no_refreshToken.
  - exact (exec_settled_ok w Hq k c a Hk).
  - exact (exec_settled_fail w Hq k c e Hk).
Qed.

Lemma added_app (w : World) (l : list Action) (storage : gmap string string)
    (flag : bool) (q i : list Config) (m : list Microtask) :
  added w (mkWorld storage flag q i m (trace w ++ l)) = l.
Proof. unfold added. simpl. apply drop_app_length. Qed.

Lemma added_nothing (w : World) : added w w = [].
Proof. unfold added. apply drop_all. Qed.

Lemma added_same_trace (w : World) (storage : gmap string string)
    (flag : bool) (q i : list Config) (m : list Microtask) :
  added w (mkWorld storage flag q i m (trace w)) = [].
Proof. unfold added. simpl. apply drop_all. Qed.

Lemma truthy_present (o : option string) (t : string) :
  truthy o = Some t -> o = Some t /\ t <> "".
Proof. destruct o as [[|a s]|]; simpl; intros H; inversion H; subst; done. Qed.

Lemma truthy_absent (o : option string) :
  truthy o = None -> o = None \/ o = Some "".
Proof. destruct o as [[|a s]|]; simpl; intros H; inversion H; auto. Qed.

(** ** What a handler does to the state, whatever reactions are pending *)

Lemma exec_Failed_parts (w w' : World) (error : AxiosError) (o : Outcome) :
  exec (Failed error) w = Some (o, w') ->
  localStorage w' = localStorage (snd (onRejected error w)) /\
  inflight w' = inflight (snd (onRejected error w)).
Proof.
  unfold exec. rewrite task_eq, checkpoint_eq. intros H. by inversion H.
Qed.

Lemma exec_Settled_parts (w w' : World) (k : nat) (r : RefreshResult) (o : Outcome) :
  exec (Settled k r) w = Some (o, w') ->
  exists originalRequest,
    inflight w !! k = Some originalRequest /\
    inflight w' = delete k (inflight w) /\
    localStorage w' =
      match r with
      | RefreshOk a => stored "accessToken" (Some a) (localStorage w)
      | RefreshFail _ => delete "refreshToken" (delete "accessToken" (localStorage w))
      end.
Proof.
  unfold exec. destruct (inflight w !! k) as [c|]; [|done].
  rewrite task_eq, bind_take_inflight, checkpoint_eq. intros H.
  inversion H; subst; clear H. exists c. split; [done|].
  destruct r; [rewrite resume_ok | rewrite resume_fail]; done.
Qed.

Lemma onRejected_parts (error : AxiosError) (w : World) :
  (localStorage (snd (onRejected error w)) = localStorage w \/
   localStorage (snd (onRejected error w)) =
     delete "refreshToken" (delete "accessToken" (localStorage w))) /\
  (inflight (snd (onRejected error w)) = inflight w \/
   needsRefresh error /\
   inflight (snd (onRejected error w)) = inflight w ++ [set_retry true (config error)]).
Proof.
  destruct (needsRefresh_dec error) as [Hn | Hp].
  - destruct (isRefreshing w) eqn:Hw.
    + rewrite onRejected_enqueue by done. simpl. auto.
    + destruct (truthy (localStorage w !! "refreshToken")) as [rt|] eqn:Ht.
      * rewrite (onRejected_refresh _ _ rt) by done. simpl. auto.
      * rewrite onRejected_no_refreshToken by done. simpl. auto.
  - rewrite onRejected_propagate by done. simpl. auto.
Qed.

Lemma exec_storage (w w' : World) (ev : Event) (o : Outcome) :
  exec ev w = Some (o, w') ->
  localStorage w' = localStorage w \/
  localStorage w' = delete "refreshToken" (delete "accessToken" (localStorage w)) \/
  exists a, localStorage w' = stored "accessToken" (Some a) (localStorage w).
Proof.
  destruct ev as [error | k r]; intros Hexec.
  - apply exec_Failed_parts in Hexec as [-> _].
    destruct (onRejected_parts error w) as [[-> | ->] _]; auto.
  - apply exec_Settled_parts in Hexec as (c & _ & _ & ->).
    destruct r; eauto.
Qed.

Lemma exec_marked (w w' : World) (ev : Event) (o : Outcome) :
  Forall marked (inflight w) ->
  exec ev w = Some (o, w') -> Forall marked (inflight w').
Proof.
  intros Hm Hexec. destruct ev as [error | k r].
  - apply exec_Failed_parts in Hexec as [_ ->].
    destruct (onRejected_parts error w) as [_ [-> | [(_ & _ & Ha) ->]]]; [done|].
    apply Forall_app. split; [done|]. by repeat constructor.
  - apply exec_Settled_parts in Hexec as (c & _ & -> & _).
    by apply Forall_delete.
Qed.

Lemma reachable_marked (w : World) : reachable w -> Forall marked (inflight w).
Proof.
  intros (storage & evs & os & Hrun).
  assert (Hinit : Forall marked (inflight (initial storage))) by constructor.
  revert Hrun Hinit. generalize (initial storage). clear storage.
  revert os. induction evs as [|ev evs IH]; intros os w0; simpl.
  - intros H. by inversion H; subst.
  - destruct (exec ev w0) as [[o w1]|] eqn:He; [|done].
    destruct (run evs w1) as [[os1 w2]|] eqn:Hr; [|done].
    intros H Hm. inversion H; subst. eapply IH; [done|]. by eapply exec_marked.
Qed.

(** X1: in every state the client can reach, no reaction is pending, at
    most one handler is suspended on a refresh call and the flag is set
    exactly when one is; the queue is empty whenever the flag is clear; while
    the flag is set a non-empty refresh token is stored; and the suspended
    handler holds a request that is marked and not exempt. *)
Theorem refresh_state_invariant (w : World) :
  reachable w ->
  microtasks w = [] /\
  length (inflight w) <= 1 /\
  (isRefreshing w = true <-> length (inflight w) = 1) /\
  (isRefreshing w = false -> failedQueue w = []) /\
  (isRefreshing w = true ->
     exists refreshToken,
       fst (getRefreshToken w) = Some refreshToken /\ refreshToken <> "") /\
  Forall marked (inflight w).
Proof.
  intros Hreach. pose proof (reachable_marked w Hreach) as Hm.
  destruct (reachable_coherent w Hreach)
    as [Hq [(Hw & Hi & Hf) | (Hw & [c Hi] & [rt Hrt])]].
  - split; [done|]. rewrite Hi in *. rewrite Hw. simpl.
    split; [lia|]. split; [split; discriminate|]. by split_and!.
  - split; [done|]. rewrite Hi in *. rewrite Hw. simpl.
    apply truthy_present in Hrt.
    split; [lia|]. split; [done|]. split; [discriminate|]. split; [eauto | done].
Qed.

Lemma refresh_state_invariant_witness :
  microtasks refreshingTwo = [] /\
  length (inflight refreshingTwo) <= 1 /\
  (isRefreshing refreshingTwo = true <-> length (inflight refreshingTwo) = 1).
Proof.
  destruct (refresh_state_invariant refreshingTwo refreshingTwo_reachable)
    as (H1 & H2 & H3 & _).
  exact (conj H1 (conj H2 H3)).
Defined.

(** ** What the coordinator never writes *)

Lemma stored_other (key key' : string) (token : option string)
    (storage : gmap string string) :
  key' <> key -> stored key token storage !! key' = storage !! key'.
Proof.
  intros Hne. unfold stored. destruct (truthy token).
  - by rewrite lookup_insert_ne.
  - by rewrite lookup_delete_ne.
Qed.

Lemma stored_not_empty (key : string) (token : option string)
    (storage : gmap string string) :
  stored key token storage !! key <> Some "".
Proof.
  unfold stored. destruct (truthy token) as [t|] eqn:Ht.
  - apply truthy_present in Ht as [_ Ht]. rewrite lookup_insert_eq. congruence.
  - by rewrite lookup_delete_eq.
Qed.

Lemma cleared_other (key : string) (storage : gmap string string) :
  key <> "accessToken" -> key <> "refreshToken" ->
  delete "refreshToken" (delete "accessToken" storage) !! key = storage !! key.
Proof. intros H1 H2. by rewrite !lookup_delete_ne. Qed.

Lemma exec_storage_frame (w w' : World) (ev : Event) (o : Outcome) :
  exec ev w = Some (o, w') ->
  (forall key, key <> "accessToken" -> key <> "refreshToken" ->
     localStorage w' !! key = localStorage w !! key) /\
  (localStorage w' !! "refreshToken" = localStorage w !! "refreshToken" \/
   localStorage w' !! "refreshToken" = None) /\
  (localStorage w !! "accessToken" <> Some "" ->
   localStorage w' !! "accessToken" <> Some "").
Proof.
  intros Hexec.
  destruct (exec_storage w w' ev o Hexec) as [-> | [-> | [a ->]]].
  - by split_and!; [|left|].
  - split_and!.
    + intros key H1 H2. by apply cleared_other.
    + right. apply cleared_lookup.
    + intros _. by rewrite (proj1 (cleared_lookup _)).
  - split_and!.
    + intros key H1 H2. by apply stored_other.
    + left. by apply stored_other.
    + intros _. apply stored_not_empty.
Qed.

(** X2: over any sequence of events the coordinator writes no storage key
    other than the two tokens, and never writes a refresh token: the stored
    refresh token is the one it started with, or it is removed. *)
Theorem coordinator_storage_frame
    (evs : list Event) (w w' : World) (os : list Outcome) :
  run evs w = Some (os, w') ->
  (forall key, key <> "accessToken" -> key <> "refreshToken" ->
     localStorage w' !! key = localStorage w !! key) /\
  (fst (getRefreshToken w') = fst (getRefreshToken w) \/
   fst (getRefreshToken w') = None).
Proof.
  revert w os; induction evs as [|ev evs IH]; intros w os; simpl.
  - intros H. inversion H; subst. auto.
  - destruct (exec ev w) as [[o w1]|] eqn:He; [|done].
    destruct (run evs w1) as [[os1 w2]|] eqn:Hr; [|done].
    intros H. inversion H; subst; clear H.
    destruct (exec_storage_frame w w1 ev o He) as (Hk1 & Hr1 & _).
    destruct (IH w1 os1 Hr) as (Hk2 & Hr2). simpl in *. split.
    + intros key H1 H2. by rewrite Hk2, Hk1.
    + destruct Hr2 as [-> | ->]; auto.
Qed.

Lemma coordinator_storage_frame_witness :
  fst (getRefreshToken refreshedTwo) = fst (getRefreshToken (initial signedIn)) \/
  fst (getRefreshToken refreshedTwo) = None.
Proof.
  apply (coordinator_storage_frame (take 3 secondFailure) (initial signedIn)
           refreshedTwo
           [Pending; Pending;
            Retry (set_Authorization "Bearer tok2" (set_retry true (call "/posts/")))]).
  vm_compute. reflexivity.
Defined.

(** X3: neither a setter nor the coordinator ever stores an empty string as
    access token: after [setAccessToken] the read is never the empty string,
    and a storage without an empty access token stays so over any sequence
    of events. *)
Theorem access_token_never_empty
    (evs : list Event) (w w' : World) (os : list Outcome) :
  fst (getAccessToken w) <> Some "" ->
  run evs w = Some (os, w') ->
  fst (getAccessToken w') <> Some "" /\
  (forall token w0, fst ((setAccessToken token ;; getAccessToken) w0) <> Some "") /\
  (forall token w0, fst ((setRefreshToken token ;; getRefreshToken) w0) <> Some "").
Proof.
  intros Hw Hrun. split_and!.
  - revert w os Hw Hrun; induction evs as [|ev evs IH]; intros w os Hw; simpl.
    + intros H. by inversion H; subst.
    + destruct (exec ev w) as [[o w1]|] eqn:He; [|done].
      destruct (run evs w1) as [[os1 w2]|] eqn:Hr; [|done].
      intros H. inversion H; subst; clear H.
      eapply IH; [|done]. by apply (exec_storage_frame w w1 ev o He).
  - intros token w0. unfold bind. rewrite setAccessToken_eq. simpl.
    apply stored_not_empty.
  - intros token w0. unfold bind, setRefreshToken.
    destruct (truthy token) as [t|] eqn:Ht; simpl.
    + apply truthy_present in Ht as [_ Ht]. rewrite lookup_insert_eq. congruence.
    + by rewrite lookup_delete_eq.
Qed.

Lemma access_token_never_empty_witness :
  fst (getAccessToken refreshedTwo) <> Some "".
Proof.
  apply (access_token_never_empty (take 3 secondFailure) (initial signedIn)
           refreshedTwo
           [Pending; Pending;
            Retry (set_Authorization "Bearer tok2" (set_retry true (call "/posts/")))]).
  - discriminate.
  - vm_compute. reflexivity.
Defined.

(** ** Navigation and refresh calls *)

Lemma no_Navigate_in_settlements (p : string) (f : Config -> Action) (q : list Config) :
  (forall prom, isNavigate (f prom) = false) -> Navigate p ∉ map f q.
Proof.
  intros Hf Hin. apply list_elem_of_fmap in Hin as (prom & Heq & _).
  specialize (Hf prom). rewrite <- Heq in Hf. discriminate.
Qed.

Lemma no_PostRefresh_in_settlements (rt : string) (f : Config -> Action)
    (q : list Config) :
  (forall prom, isPostRefresh (f prom) = false) -> PostRefresh rt ∉ map f q.
Proof.
  intros Hf Hin. apply list_elem_of_fmap in Hin as (prom & Heq & _).
  specialize (Hf prom). rewrite <- Heq in Hf. discriminate.
Qed.

Lemma filter_none (p : Action -> bool) (l : list Action) :
  Forall (fun a => p a = false) l -> filter p l = [].
Proof.
  induction 1 as [|a l Ha _ IH]; [done|].
  rewrite filter_cons. by rewrite Ha.
Qed.

(** X4: from a state the client can reach, an event makes the browser
    navigate exactly when it ends the session (a 401, on a call neither
    exempt nor marked, that finds no refresh token, or a refresh call that
    fails); the target is then "/auth/sign-in", both tokens are removed, and
    no event navigates twice. *)
Theorem navigation_only_at_session_end
    (w w' : World) (ev : Event) (o : Outcome) :
  reachable w ->
  exec ev w = Some (o, w') ->
  (forall path, Navigate path ∈ added w w' <->
     path = "/auth/sign-in" /\ sessionEnds w ev) /\
  length (filter isNavigate (added w w')) <= 1 /\
  (sessionEnds w ev -> signedOut w' /\ isRefreshing w' = false).
Proof.
  intros Hreach Hexec.
  pose proof (reachable_coherent w Hreach) as Hc. pose proof Hc as [Hq _].
  apply exec_transition in Hexec; [|done].
  destruct Hexec as [w error Hp | w error Hn Hw | w error rt Hn Hw Hrt
                    | w error Hn Hw Hrt | w k c a Hk | w k c e Hk].
  - rewrite added_nothing. simpl. split_and!; [|lia|].
    + intros path. split; [by intros ?%elem_of_nil|].
      intros [_ [(Hs & Hr & Ha) _]]. destruct Hp as [? | [? | ?]]; congruence.
    + intros [(Hs & Hr & Ha) _]. destruct Hp as [? | [? | ?]]; congruence.
  - rewrite added_same_trace. simpl.
    destruct (coherent_refreshing w Hc Hw) as (_ & _ & [rt Hrt]).
    split_and!; [|lia|].
    + intros path. split; [by intros ?%elem_of_nil|].
      intros [_ [_ Hnone]]. simpl in Hnone. congruence.
    + intros [_ Hnone]. simpl in Hnone. congruence.
  - rewrite added_app. simpl. split_and!; [|lia|].
    + intros path. split.
      * intros [Heq | Hin%elem_of_nil]%elem_of_cons; [discriminate | done].
      * intros [_ [_ Hnone]]. simpl in Hnone. congruence.
    + intros [_ Hnone]. simpl in Hnone. congruence.
  - rewrite added_app. split_and!.
    + intros path. split.
      * intros [Heq | Hin]%elem_of_cons.
        -- inversion Heq; subst. by split.
        -- by apply no_Navigate_in_settlements in Hin.
      * intros [-> _]. apply list_elem_of_here.
    + rewrite filter_cons. simpl.
      rewrite filter_none; [simpl; lia|].
      apply Forall_map. by apply Forall_true.
    + intros _. split; [apply cleared_lookup | done].
  - rewrite added_app. simpl. split_and!; [| |done].
    + intros path. split; [|by intros [_ []]].
      intros [Heq | Hin]%elem_of_cons; [discriminate|].
      by apply no_Navigate_in_settlements in Hin.
    + rewrite filter_cons. simpl.
      rewrite filter_none; [simpl; lia|].
      apply Forall_map. by apply Forall_true.
  - rewrite added_app. split_and!.
    + intros path. split.
      * intros [Heq | Hin]%elem_of_cons.
        -- inversion Heq; subst. by split.
        -- by apply no_Navigate_in_settlements in Hin.
      * intros [-> _]. apply list_elem_of_here.
    + rewrite filter_cons. simpl.
      rewrite filter_none; [simpl; lia|].
      apply Forall_map. by apply Forall_true.
    + intros _. split; [apply cleared_lookup | done].
Qed.

Lemma refreshingTwo_fails :
  exec (Settled 0 (RefreshFail (ErrNew "expired"))) refreshingTwo =
    Some (Reject (ErrNew "expired"), signedOutTwo).
Proof. vm_compute. reflexivity. Qed.

Lemma navigation_only_at_session_end_witness :
  Navigate "/auth/sign-in" ∈ added refreshingTwo signedOutTwo /\
  signedOut signedOutTwo.
Proof.
  destruct (navigation_only_at_session_end refreshingTwo signedOutTwo
              (Settled 0 (RefreshFail (ErrNew "expired")))
              (Reject (ErrNew "expired"))
              refreshingTwo_reachable refreshingTwo_fails) as (Hiff & _ & Hout).
  split.
  - apply Hiff. split; [reflexivity | exact I].
  - apply Hout. exact I.
Defined.

(** X5: from a state the client can reach, a refresh call is issued only by
    a 401 on a call neither exempt nor marked while the flag is clear; it is
    the only action of that event, it carries the stored refresh token, which
    is not empty, and it leaves the flag set with that call's marked request
    held by the suspended handler. *)
Theorem refresh_call_provenance
    (w w' : World) (ev : Event) (o : Outcome) (refreshToken : string) :
  reachable w ->
  exec ev w = Some (o, w') ->
  PostRefresh refreshToken ∈ added w w' ->
  fst (getRefreshToken w) = Some refreshToken /\
  refreshToken <> "" /\
  isRefreshing w = false /\
  isRefreshing w' = true /\
  added w w' = [PostRefresh refreshToken] /\
  o = Pending /\
  exists error,
    ev = Failed error /\ needsRefresh error /\
    inflight w' = [set_retry true (config error)].
Proof.
  intros Hreach Hexec Hin.
  pose proof (reachable_coherent w Hreach) as Hc. pose proof Hc as [Hq _].
  apply exec_transition in Hexec; [|done].
  destruct Hexec as [w error Hp | w error Hn Hw | w error rt Hn Hw Hrt
                    | w error Hn Hw Hrt | w k c a Hk | w k c e Hk].
  - rewrite added_nothing in Hin. by apply elem_of_nil in Hin.
  - rewrite added_same_trace in Hin. by apply elem_of_nil in Hin.
  - rewrite added_app in *.
    apply elem_of_cons in Hin as [Heq | Hin%elem_of_nil]; [|done].
    inversion Heq; subst rt. apply truthy_present in Hrt as [Hrt Hne].
    destruct (coherent_idle w Hc Hw) as (_ & Hi & _).
    split_and!; try done. exists error. simpl. by rewrite Hi.
  - rewrite added_app in Hin.
    apply elem_of_cons in Hin as [Heq | Hin]; [discriminate|].
    by apply no_PostRefresh_in_settlements in Hin.
  - rewrite added_app in Hin.
    apply elem_of_cons in Hin as [Heq | Hin]; [discriminate|].
    by apply no_PostRefresh_in_settlements in Hin.
  - rewrite added_app in Hin.
    apply elem_of_cons in Hin as [Heq | Hin]; [discriminate|].
    by apply no_PostRefresh_in_settlements in Hin.
Qed.

Lemma refresh_call_provenance_witness :
  fst (getRefreshToken (initial signedIn)) = Some "ref1" /\
  isRefreshing (initial signedIn) = false.
Proof.
  destruct (refresh_call_provenance (initial signedIn)
              (mkWorld signedIn true [] [set_retry true (call "/posts/")] []
                       [PostRefresh "ref1"])
              (Failed (unauthorized (call "/posts/"))) Pending "ref1")
    as (Hget & _ & Hw & _).
  - exists signedIn, [], []. reflexivity.
  - vm_compute. reflexivity.
  - apply list_elem_of_here.
  - exact (conj Hget Hw).
Defined.

(** X6: the call that started a refresh is retried once.  When the refresh
    call succeeds, that call is sent again with its request marked; if the
    request sent fails in turn, with a 401 or anything else, the handler
    rejects with that error and changes nothing: no second refresh call, no
    second retry. *)
Theorem refresh_starter_is_retried_once
    (w w' : World) (k : nat) (newAccessToken : string) (o : Outcome) :
  reachable w ->
  exec (Settled k (RefreshOk newAccessToken)) w = Some (o, w') ->
  exists sent,
    o = Retry sent /\
    _retry sent = true /\
    Send sent ∈ added w w' /\
    forall w2 st msg,
      reachable w2 ->
      exec (Failed (mkAxiosError sent st msg)) w2 =
        Some (Reject (ErrAxios (mkAxiosError sent st msg)), w2).
Proof.
  intros Hreach Hexec.
  pose proof (reachable_coherent w Hreach) as [Hq _].
  pose proof (reachable_marked w Hreach) as Hm.
  destruct (inflight w !! k) as [c|] eqn:Hk; [|by simpl in Hexec; rewrite Hk in Hexec].
  rewrite (exec_settled_ok w Hq k c newAccessToken Hk) in Hexec. cbv zeta in Hexec.
  inversion Hexec; subst o w'; clear Hexec.
  assert (Hc : _retry c = true).
  { eapply Forall_forall in Hm as [Hr _]; [done|].
    by eapply list_elem_of_lookup_2. }
  eexists. split; [done|].
  assert (Hsent : forall token value,
             _retry (sentWith token (set_Authorization value c)) = true).
  { intros token value. unfold sentWith, set_Authorization.
    destruct (headers c) eqn:Hh; simpl; rewrite ?Hh;
      destruct (truthy token); simpl; rewrite ?Hh; done. }
  split_and!.
  - apply Hsent.
  - rewrite added_app. apply list_elem_of_here.
  - intros w2 st msg [Hq2 _]%reachable_coherent.
    apply exec_propagate; [done|]. right. left. apply Hsent.
Qed.

Lemma refresh_starter_is_retried_once_witness :
  exists sent,
    Retry (set_Authorization "Bearer tok2" (set_retry true (call "/posts/"))) = Retry sent /\
    _retry sent = true.
Proof.
  destruct (refresh_starter_is_retried_once refreshingTwo refreshedTwo 0 "tok2"
              (Retry (set_Authorization "Bearer tok2" (set_retry true (call "/posts/"))))
              refreshingTwo_reachable) as (sent & Ho & Hr & _).
  - vm_compute. reflexivity.
  - exists sent. exact (conj Ho Hr).
Defined.

(** ** The two ways a refresh call can end *)

(** X7: when the refresh call succeeds with an empty access token, nothing is
    stored: the access token is removed while the refresh token stays.  The
    call that started the refresh is sent again with Authorization "Bearer "
    and every queued call with Authorization "Bearer null"; the browser does
    not navigate and the flag is cleared. *)
Theorem refresh_with_empty_access_token
    (w w' : World) (k : nat) (o : Outcome) :
  reachable w ->
  exec (Settled k (RefreshOk "")) w = Some (o, w') ->
  exists originalRequest,
    inflight w = [originalRequest] /\
    fst (getAccessToken w') = None /\
    fst (getRefreshToken w') = fst (getRefreshToken w) /\
    o = Retry (set_Authorization "Bearer " originalRequest) /\
    added w w' =
      Send (set_Authorization "Bearer " originalRequest) ::
      map (fun prom => Send (set_Authorization "Bearer null" prom)) (failedQueue w) /\
    idle w'.
Proof.
  intros Hreach Hexec.
  pose proof (reachable_coherent w Hreach) as Hc. pose proof Hc as [Hq _].
  destruct (inflight w !! k) as [c|] eqn:Hk; [|by simpl in Hexec; rewrite Hk in Hexec].
  destruct (coherent_inflight w k c Hc Hk) as (_ & Hin & ->).
  rewrite (exec_settled_ok w Hq 0 c "" Hk) in Hexec. cbv zeta in Hexec.
  unfold stored in Hexec. simpl truthy in Hexec. cbv iota in Hexec.
  rewrite lookup_delete_eq in Hexec.
  inversion Hexec; subst o w'; clear Hexec.
  exists c. rewrite added_app. simpl. rewrite Hin.
  split_and!; try done.
  - apply lookup_delete_eq.
  - by rewrite lookup_delete_ne.
Qed.

Lemma refresh_with_empty_access_token_witness :
  exists originalRequest,
    inflight refreshingTwo = [originalRequest] /\
    fst (getAccessToken
           (mkWorld (delete "accessToken" signedIn) false [] [] []
              [PostRefresh "ref1";
               Send (set_Authorization "Bearer " (set_retry true (call "/posts/")));
               Send (set_Authorization "Bearer null" (call "/videos/"))])) = None.
Proof.
  destruct (refresh_with_empty_access_token refreshingTwo
              (mkWorld (delete "accessToken" signedIn) false [] [] []
                 [PostRefresh "ref1";
                  Send (set_Authorization "Bearer " (set_retry true (call "/posts/")));
                  Send (set_Authorization "Bearer null" (call "/videos/"))])
              0 (Retry (set_Authorization "Bearer " (set_retry true (call "/posts/"))))
              refreshingTwo_reachable) as (c & Hin & Hget & _).
  - vm_compute. reflexivity.
  - exists c. exact (conj Hin Hget).
Defined.

(** X8: when the refresh call fails, the call that started it is rejected
    with the refresh error (not with its own 401), every queued call is
    rejected with the same error in queue order, the browser navigates to
    "/auth/sign-in" first, both tokens are removed, the other storage keys
    are kept, and the coordinator is idle again. *)
Theorem failed_refresh_ends_session
    (w w' : World) (k : nat) (refreshError : Reason) (o : Outcome) :
  reachable w ->
  exec (Settled k (RefreshFail refreshError)) w = Some (o, w') ->
  o = Reject refreshError /\
  added w w' =
    Navigate "/auth/sign-in" ::
    map (fun prom => Rejected prom refreshError) (failedQueue w) /\
  signedOut w' /\
  idle w' /\
  (forall key, key <> "accessToken" -> key <> "refreshToken" ->
     localStorage w' !! key = localStorage w !! key).
Proof.
  intros Hreach Hexec.
  pose proof (reachable_coherent w Hreach) as Hc. pose proof Hc as [Hq _].
  destruct (inflight w !! k) as [c|] eqn:Hk; [|by simpl in Hexec; rewrite Hk in Hexec].
  destruct (coherent_inflight w k c Hc Hk) as (_ & Hin & ->).
  rewrite (exec_settled_fail w Hq 0 c refreshError Hk) in Hexec.
  inversion Hexec; subst o w'; clear Hexec.
  rewrite added_app. rewrite Hin. split_and!; try done.
  - apply cleared_lookup.
  - intros key H1 H2. by apply cleared_other.
Qed.

Lemma failed_refresh_ends_session_witness :
  Reject (ErrNew "expired") = Reject (ErrNew "expired") /\
  added refreshingTwo signedOutTwo =
    [Navigate "/auth/sign-in"; Rejected (call "/videos/") (ErrNew "expired")].
Proof.
  destruct (failed_refresh_ends_session refreshingTwo signedOutTwo 0
              (ErrNew "expired") (Reject (ErrNew "expired"))
              refreshingTwo_reachable refreshingTwo_fails) as (Ho & Hadd & _).
  exact (conj Ho Hadd).
Defined.

(** ** Exempt endpoints, exactly *)

(** X9: a request is exempt from the refresh exactly when it has a url and
    that url contains "/auth/signin", "/auth/register" or
    "/auth/token/refresh"; a request without url is never exempt. *)
Theorem exempt_exactly_by_substring (originalRequest : Config) :
  (isAuthEndpoint originalRequest = true <->
   exists u path pre post,
     url originalRequest = Some u /\
     path ∈ ["/auth/signin"; "/auth/register"; "/auth/token/refresh"] /\
     u = pre +:+ path +:+ post) /\
  (url originalRequest = None -> isAuthEndpoint originalRequest = false).
Proof.
  split.
  - split.
    + unfold isAuthEndpoint. destruct (url originalRequest) as [u|]; [|done].
      rewrite !orb_true_iff, !includes_spec.
      intros [[(pre & post & H) | (pre & post & H)] | (pre & post & H)].
      * exists u, "/auth/signin", pre, post. split_and!; [done | | done].
        apply list_elem_of_here.
      * exists u, "/auth/register", pre, post. split_and!; [done | | done].
        apply list_elem_of_further, list_elem_of_here.
      * exists u, "/auth/token/refresh", pre, post. split_and!; [done | | done].
        do 2 apply list_elem_of_further. apply list_elem_of_here.
    + intros (u & path & pre & post & Hu & Hp & Hs).
      by eapply isAuthEndpoint_substring.
  - intros Hu. unfold isAuthEndpoint. by rewrite Hu.
Qed.

(** ** The newsfeed service *)

Import NewsfeedService.

Lemma pretty_N_char_digit (y : N) :
  bool_decide (pretty_N_char y ∈ ["0"; "1"; "2"; "3"; "4"; "5"; "6"; "7"; "8"; "9"]%char) = true.
Proof. unfold pretty_N_char. repeat case_match; reflexivity. Qed.

Lemma allDigits_pretty_N_go (x : N) (s : string) :
  allDigits s = true -> allDigits (pretty_N_go x s) = true.
Proof.
  revert s. induction (N.lt_wf_0 x) as [x _ IH]; intros s Hs.
  destruct (decide (x = 0%N)) as [-> | Hx]; [done|].
  rewrite pretty_N_go_step by lia. apply IH.
  - apply N.div_lt; lia.
  - simpl. by rewrite Hs, pretty_N_char_digit.
Qed.

Lemma allDigits_pretty (n : N) : allDigits (pretty n) = true.
Proof.
  unfold pretty, pretty_N. case_decide; [done|]. by apply allDigits_pretty_N_go.
Qed.

Lemma digit_not_slash (c : ascii) :
  bool_decide (c ∈ ["0"; "1"; "2"; "3"; "4"; "5"; "6"; "7"; "8"; "9"]%char) = true ->
  c <> "/"%char /\ c <> "a"%char.
Proof.
  intros H%bool_decide_eq_true.
  repeat (apply elem_of_cons in H as [-> | H]; [split; discriminate|]).
  by apply elem_of_nil in H.
Qed.

Lemma includes_cons (c : ascii) (s p : string) :
  includes (String c s) p = startsWith (String c s) p || includes s p.
Proof. reflexivity. Qed.

Lemma includes_slashA_app (s1 s2 : string) :
  includes (s1 +:+ s2) "/a" =
    includes s1 "/a" || (endsWithSlash s1 && startsWith s2 "a") || includes s2 "/a".
Proof.
  induction s1 as [|c s1 IH].
  - simpl. destruct s2; reflexivity.
  - change (String c s1 +:+ s2) with (String c (s1 +:+ s2)).
    rewrite !includes_cons, IH.
    destruct s1 as [|c' s1].
    + simpl. destruct (bool_decide ("/"%char = c)) eqn:Hc.
      * apply bool_decide_eq_true in Hc as <-. simpl.
        destruct s2 as [|d s2]; simpl; [reflexivity|].
        by destruct (bool_decide ("a"%char = d)), (includes s2 "/a").
      * simpl. rewrite (bool_decide_eq_false_2 (c = "/"%char)) by (apply bool_decide_eq_false in Hc; congruence).
        simpl. destruct s2; reflexivity.
    + change (endsWithSlash (String c (String c' s1))) with (endsWithSlash (String c' s1)).
      change (String c' s1 +:+ s2) with (String c' (s1 +:+ s2)).
      simpl startsWith.
      destruct (bool_decide ("/"%char = c)), (bool_decide ("a"%char = c')); simpl;
        repeat (match goal with |- context [?b || true] => rewrite (orb_true_r b) end);
        try reflexivity.
      all: by destruct (startsWith _ _), (includes _ _ ), (endsWithSlash _), (includes s2 _).
Qed.

Lemma digits_no_slashA (d : string) :
  allDigits d = true ->
  includes d "/a" = false /\ endsWithSlash d = false /\
  (forall rest, startsWith rest "a" = false -> startsWith (d +:+ rest) "a" = false).
Proof.
  induction d as [|c d IH]; simpl; [done|].
  intros [Hc Hd]%andb_true_iff. destruct (digit_not_slash c Hc) as [Hs Ha].
  destruct (IH Hd) as (Hi & He & Hst).
  rewrite (bool_decide_eq_false_2 ("/"%char = c)) by congruence.
  rewrite (bool_decide_eq_false_2 ("a"%char = c)) by congruence.
  simpl. split; [done|]. split; [|done].
  destruct d; [|done]. by rewrite bool_decide_eq_false_2.
Qed.

Lemma feed_path_no_slashA (p1 p2 : string) (feedId : N) :
  includes p1 "/a" = false -> includes p2 "/a" = false ->
  startsWith p2 "a" = false ->
  includes (p1 +:+ pretty feedId +:+ p2) "/a" = false.
Proof.
  intros H1 H2 H3.
  destruct (digits_no_slashA (pretty feedId) (allDigits_pretty feedId))
    as (Hi & He & Hst).
  rewrite !includes_slashA_app, H1, H2, Hi, He, (Hst p2 H3).
  by rewrite andb_false_r.
Qed.

Lemma string_append_assoc (s1 s2 s3 : string) :
  (s1 +:+ s2) +:+ s3 = s1 +:+ (s2 +:+ s3).
Proof.
  induction s1 as [|c s1 IH]; [done|].
  change (String c ((s1 +:+ s2) +:+ s3) = String c (s1 +:+ (s2 +:+ s3))).
  by rewrite IH.
Qed.

Lemma includes_longer (s p p' : string) :
  includes s (p +:+ p') = true -> includes s p = true.
Proof.
  rewrite !includes_spec. intros (pre & post & ->).
  exists pre, (p' +:+ post). by rewrite string_append_assoc.
Qed.

Lemma no_slashA_not_exempt (c : Config) (u : string) :
  url c = Some u -> includes u "/a" = false -> isAuthEndpoint c = false.
Proof.
  intros Hu Hn. unfold isAuthEndpoint. rewrite Hu.
  destruct (includes u "/auth/signin") eqn:H1.
  { apply (includes_longer u "/a" "uth/signin") in H1. congruence. }
  destruct (includes u "/auth/register") eqn:H2.
  { apply (includes_longer u "/a" "uth/register") in H2. congruence. }
  destruct (includes u "/auth/token/refresh") eqn:H3.
  { apply (includes_longer u "/a" "uth/token/refresh") in H3. congruence. }
  reflexivity.
Qed.

Lemma issued_no_slashA (r : Request) : issued r -> includes (path r) "/a" = false.
Proof.
  destruct 1;
    first [ by apply feed_path_no_slashA | vm_compute; reflexivity ].
Qed.

(** X10: no request of the newsfeed service goes to an exempt endpoint.  So
    while a refresh token is stored, a 401 on a service call is never handed
    back to the caller at once: it starts the refresh call when none is in
    progress, and is queued behind it otherwise. *)
Theorem service_calls_take_part_in_refresh (r : Request) (c : Config) :
  issued r ->
  url c = Some (path r) ->
  isAuthEndpoint c = false /\
  (forall w msg refreshToken,
     reachable w -> _retry c = false ->
     truthy (fst (getRefreshToken w)) = Some refreshToken ->
     exists w',
       exec (Failed (mkAxiosError c (Some 401%Z) msg)) w = Some (Pending, w') /\
       isRefreshing w' = true /\
       (if isRefreshing w
        then failedQueue w' = failedQueue w ++ [c] /\ added w w' = []
        else added w w' = [PostRefresh refreshToken])).
Proof.
  intros Hi Hu.
  assert (Ha : isAuthEndpoint c = false).
  { eapply no_slashA_not_exempt; [done|]. by apply issued_no_slashA. }
  split; [done|]. intros w msg rt Hreach Hr Hrt.
  pose proof (reachable_coherent w Hreach) as [Hq _].
  assert (Hn : needsRefresh (mkAxiosError c (Some 401%Z) msg)) by done.
  destruct (isRefreshing w) eqn:Hw.
  - eexists. split; [by apply exec_enqueue|]. simpl.
    by rewrite added_same_trace.
  - eexists. split; [by apply (exec_refresh w Hq _ rt)|]. simpl.
    by rewrite added_app.
Qed.

Lemma digits_split (d1 d2 r1 r2 : string) :
  allDigits d1 = true -> allDigits d2 = true ->
  d1 +:+ String "/" r1 = d2 +:+ String "/" r2 -> d1 = d2 /\ r1 = r2.
Proof.
  revert d2; induction d1 as [|c d1 IH]; intros [|c2 d2]; simpl.
  - intros _ _ H. by inversion H.
  - intros _ [Hc _]%andb_true_iff H. inversion H; subst.
    by destruct (digit_not_slash _ Hc).
  - intros [Hc _]%andb_true_iff _ H. inversion H; subst.
    by destruct (digit_not_slash _ Hc).
  - intros [_ H1]%andb_true_iff [_ H2]%andb_true_iff H.
    inversion H; subst. destruct (IH d2 H1 H2) as [-> ->]; done.
Qed.

Lemma feed_path_inj (a b : N) (r1 r2 : string) :
  pretty a +:+ String "/" r1 = pretty b +:+ String "/" r2 -> a = b /\ r1 = r2.
Proof.
  intros H. apply digits_split in H as [Hp Hr]; try apply allDigits_pretty.
  split; [by apply (inj pretty) | done].
Qed.

(** X11: the paths of the service address one feed each: two calls among
    getFeed, getFeedItems, refreshFeed and their video counterparts have the
    same path only if they are the same function called with the same feed
    id. *)
Theorem feed_paths_address_one_feed
    (i j : nat) (f g : N -> Request) (a b : N) :
  perFeed !! i = Some f -> perFeed !! j = Some g ->
  path (f a) = path (g b) -> i = j /\ a = b.
Proof.
  intros Hi Hj Hp.
  repeat (destruct i as [|i]; [|try done]);
  repeat (destruct j as [|j]; [|try done]);
  simpl in Hi, Hj; inversion Hi; inversion Hj; subst f g;
  cbn [path getFeed getFeedItems refreshFeed getVideoFeed getVideoFeedItems
       refreshVideoFeed String.append] in Hp;
  try discriminate Hp;
  inversion Hp as [Hq]; apply feed_path_inj in Hq as [-> Hr];
  first [done | discriminate Hr].
Qed.

Lemma feed_paths_address_one_feed_witness :
  path (getFeedItems 7) = path (getFeedItems 7) /\ (1 = 1 /\ 7%N = 7%N).
Proof.
  split; [reflexivity|].
  apply (feed_paths_address_one_feed 1 1 getFeedItems getFeedItems 7 7);
    reflexivity.
Defined.

Lemma service_calls_take_part_in_refresh_witness :
  isAuthEndpoint (call (path (refreshFeed 7))) = false.
Proof.
  apply (service_calls_take_part_in_refresh (refreshFeed 7)
           (call (path (refreshFeed 7)))).
  - constructor.
  - reflexivity.
Defined.

(** ** The newsfeed page and its hooks *)

Import Hooks NewsfeedPage.

Lemma sameType_eq (a b : ContentType) : sameType a b = true <-> a = b.
Proof. destruct a, b; simpl; split; done. Qed.

Lemma items_enabled (feedId : option N) (on : bool) :
  negb (bool_decide (Some (mkOptions (Some on) (if on then Some 5000%Z else None))
                       ≫= enabled = Some false))
  && bool_decide (feedId <> None) = on && bool_decide (feedId <> None).
Proof. by destruct on. Qed.

Lemma postsQuery_enabled (s : State) :
  queryEnabled (postsQuery s) = true <->
  contentType s = posts /\ isPolling s = true /\ ofPosts (feedIds s) <> None.
Proof.
  unfold postsQuery, useFeedItems. cbn [queryEnabled]. rewrite items_enabled.
  unfold postsPolling.
  rewrite !andb_true_iff, !bool_decide_eq_true, sameType_eq. tauto.
Qed.

Lemma reelsQuery_enabled (s : State) :
  queryEnabled (reelsQuery s) = true <->
  contentType s = reels /\ isPolling s = true /\ ofReels (feedIds s) <> None.
Proof.
  unfold reelsQuery, useVideoFeedItems. cbn [queryEnabled]. rewrite items_enabled.
  unfold reelsPolling.
  rewrite !andb_true_iff, !bool_decide_eq_true, sameType_eq. tauto.
Qed.

(** X12: the page polls at most one feed.  The items query of posts is
    enabled exactly when the page shows posts, polling is on and a posts feed
    is selected, and likewise for reels, so the two are never enabled
    together and none is while polling is off.  An enabled query refetches
    every 5000 ms and a disabled one never.  A query only ever asks for the
    items of the selected feed, and for feed id 0 it asks for nothing even
    when it is enabled. *)
Theorem one_feed_polled_at_a_time (s : State) :
  (queryEnabled (postsQuery s) = true <->
   contentType s = posts /\ isPolling s = true /\ ofPosts (feedIds s) <> None) /\
  (queryEnabled (reelsQuery s) = true <->
   contentType s = reels /\ isPolling s = true /\ ofReels (feedIds s) <> None) /\
  ~ (queryEnabled (postsQuery s) = true /\ queryEnabled (reelsQuery s) = true) /\
  queryRefetchInterval (postsQuery s) =
    (if queryEnabled (postsQuery s) then Some 5000%Z else None) /\
  queryRefetchInterval (reelsQuery s) =
    (if queryEnabled (reelsQuery s) then Some 5000%Z else None) /\
  (forall r, queryFn (postsQuery s) = Some r ->
     exists id, ofPosts (feedIds s) = Some id /\ id <> 0%N /\ r = getFeedItems id) /\
  (forall r, queryFn (reelsQuery s) = Some r ->
     exists id, ofReels (feedIds s) = Some id /\ id <> 0%N /\ r = getVideoFeedItems id) /\
  (ofPosts (feedIds s) = Some 0%N -> queryFn (postsQuery s) = None) /\
  (ofReels (feedIds s) = Some 0%N -> queryFn (reelsQuery s) = None).
Proof.
  pose proof (postsQuery_enabled s) as Hposts.
  pose proof (reelsQuery_enabled s) as Hreels.
  split; [exact Hposts|]. split; [exact Hreels|]. split_and!.
  - intros [[H1 _]%Hposts [H2 _]%Hreels]. congruence.
  - unfold postsQuery, useFeedItems. cbn [queryEnabled queryRefetchInterval].
    rewrite items_enabled. unfold postsPolling.
    destruct (bool_decide (ofPosts (feedIds s) <> None)),
      (sameType (contentType s) posts), (isPolling s); reflexivity.
  - unfold reelsQuery, useVideoFeedItems. cbn [queryEnabled queryRefetchInterval].
    rewrite items_enabled. unfold reelsPolling.
    destruct (bool_decide (ofReels (feedIds s) <> None)),
      (sameType (contentType s) reels), (isPolling s); reflexivity.
  - intros r. unfold postsQuery, useFeedItems. cbn [queryFn].
    destruct (ofPosts (feedIds s)) as [id|]; [|done].
    unfold nonzeroN. case_bool_decide as Hz; simpl; [done|].
    intros Hr0. inversion Hr0. by exists id.
  - intros r. unfold reelsQuery, useVideoFeedItems. cbn [queryFn].
    destruct (ofReels (feedIds s)) as [id|]; [|done].
    unfold nonzeroN. case_bool_decide as Hz; simpl; [done|].
    intros Hr0. inversion Hr0. by exists id.
  - intros H. unfold postsQuery, useFeedItems. cbn [queryFn]. by rewrite H.
  - intros H. unfold reelsQuery, useVideoFeedItems. cbn [queryFn]. by rewrite H.
Qed.

(** X13: what the buttons of the page do to polling.  Stopping polling or
    clearing the filter leaves no query enabled; clearing resets the prompt,
    the filter and the feed id of the shown content type only.  A manual
    refresh with no feed selected, or with feed id 0, changes nothing and
    starts no mutation; otherwise it turns polling on, keeps the feed ids,
    starts the refresh mutation of the shown content type for the selected
    feed, whose request is POST on that feed's refresh path, and that
    mutation invalidates the key of the query the page has enabled. *)
Theorem page_buttons_and_polling (s : State) :
  (forall s', s' = handleStopPolling s \/ s' = handleClearFilter s ->
     queryEnabled (postsQuery s') = false /\ queryEnabled (reelsQuery s') = false) /\
  (currentFeedId (handleClearFilter s) = None /\
   at_ (contentType s) (filters (handleClearFilter s)) = "" /\
   at_ (contentType s) (prompts (handleClearFilter s)) = "" /\
   forall c, c <> contentType s ->
     at_ c (feedIds (handleClearFilter s)) = at_ c (feedIds s) /\
     at_ c (filters (handleClearFilter s)) = at_ c (filters s) /\
     at_ c (prompts (handleClearFilter s)) = at_ c (prompts s)) /\
  match handleManualRefresh s with
  | (s', None) =>
      s' = s /\ (currentFeedId s = None \/ currentFeedId s = Some 0%N)
  | (s', Some m) =>
      exists id,
        currentFeedId s = Some id /\ id <> 0%N /\
        isPolling s' = true /\ feedIds s' = feedIds s /\
        contentType s' = contentType s /\
        method (mutationFn m) = POST /\
        match contentType s with
        | posts =>
            path (mutationFn m) = "/posts/" +:+ pretty id +:+ "/refresh/" /\
            queryEnabled (postsQuery s') = true /\
            invalidates m = queryKey (postsQuery s')
        | reels =>
            path (mutationFn m) = "/videos/" +:+ pretty id +:+ "/refresh/" /\
            queryEnabled (reelsQuery s') = true /\
            invalidates m = queryKey (reelsQuery s')
        end
  end.
Proof.
  split; [|split].
  - intros s' Hs'.
    pose proof (postsQuery_enabled s') as Hp.
    pose proof (reelsQuery_enabled s') as Hr.
    assert (Hoff : isPolling s' = false) by (by destruct Hs' as [-> | ->]).
    split.
    + destruct (queryEnabled (postsQuery s')); [|done].
      destruct (proj1 Hp eq_refl) as (_ & Hon & _). congruence.
    + destruct (queryEnabled (reelsQuery s')); [|done].
      destruct (proj1 Hr eq_refl) as (_ & Hon & _). congruence.
  - unfold handleClearFilter, currentFeedId. simpl.
    split; [by destruct (contentType s)|].
    split; [by destruct (contentType s)|].
    split; [by destruct (contentType s)|].
    intros c Hc. by destruct c, (contentType s).
  - unfold handleManualRefresh, currentFeedId.
    destruct (at_ (contentType s) (feedIds s)) as [id|] eqn:Hid; [|by auto].
    unfold nonzeroN. case_bool_decide as Hz; simpl; [subst; by auto|].
    exists id. split_and!; try done.
    + by destruct (contentType s).
    + destruct (contentType s) eqn:Hc; simpl in Hid; split_and!; try done.
      * unfold postsQuery, useFeedItems, postsPolling. simpl. rewrite Hid. simpl.
        rewrite ?bool_decide_eq_true_2 by done. done.
      * unfold postsQuery, useFeedItems. simpl. by rewrite Hid.
      * unfold reelsQuery, useVideoFeedItems, reelsPolling. simpl. rewrite Hid. simpl.
        rewrite ?bool_decide_eq_true_2 by done. done.
      * unfold reelsQuery, useVideoFeedItems. simpl. by rewrite Hid.
Qed.

(** X14: the filters and the polling flag survive a reload.  Reading the
    filters back from what the effect stored gives the same two filters, the
    empty one included (its key is removed and read back as empty); the
    polling flag is read back as stored; each is stored under keys of its
    own; and with nothing stored the page starts with empty filters and
    polling off. *)
Theorem filters_survive_reload
    (f : PerType string) (b : bool) (sessionStorage : gmap string string) :
  initFilters (persistFilters f sessionStorage) = f /\
  initIsPolling (persistIsPolling b sessionStorage) = b /\
  initFilters (persistIsPolling b sessionStorage) = initFilters sessionStorage /\
  initIsPolling (persistFilters f sessionStorage) = initIsPolling sessionStorage /\
  (forall key,
     key ∉ ["newsfeed_activeFilter"; "newsfeed_reelsFilter"; "newsfeed_isPolling"] ->
     persistIsPolling b (persistFilters f sessionStorage) !! key = sessionStorage !! key) /\
  initFilters ∅ = mkPerType "" "" /\
  initIsPolling ∅ = false.
Proof.
  split_and!.
  - destruct f as [[|a1 f1] [|a2 f2]]; unfold initFilters, persistFilters; simpl;
      by simplify_map_eq.
  - unfold initIsPolling, persistIsPolling. rewrite lookup_insert_eq.
    destruct b; [by apply bool_decide_eq_true_2 | by apply bool_decide_eq_false_2].
  - unfold initFilters, persistIsPolling. by rewrite !lookup_insert_ne.
  - unfold initIsPolling, persistFilters.
    destruct (truthy (Some (ofPosts f))), (truthy (Some (ofReels f)));
      by simplify_map_eq.
  - intros key Hkey.
    assert (key <> "newsfeed_activeFilter" /\ key <> "newsfeed_reelsFilter" /\
            key <> "newsfeed_isPolling") as (H1 & H2 & H3).
    { split_and!; intros ->; apply Hkey; set_solver. }
    unfold persistIsPolling, persistFilters.
    destruct (truthy (Some (ofPosts f))), (truthy (Some (ofReels f)));
      by simplify_map_eq.
  - reflexivity.
  - reflexivity.
Qed.

(** X15: the label of a timestamp.  With [seconds] the whole seconds from
    the date to now, rounded down: below a minute (a date in the future
    included, which gives a negative number) the label is the seconds
    followed by "s"; below an hour it is the whole minutes, between 1 and
    59, followed by "m"; below a day the whole hours, between 1 and 23,
    followed by "h"; below a week the whole days, between 1 and 6, followed
    by "d"; from a week on it is the locale date. *)
Theorem formatTimestamp_buckets (now date : Z) (localeDate : string) :
  let seconds := ((now - date) `div` 1000)%Z in
  ((seconds < 60)%Z ->
     formatTimestamp now date localeDate = pretty seconds +:+ "s") /\
  ((60 <= seconds < 3600)%Z ->
     exists m, (1 <= m < 60)%Z /\ (60 * m <= seconds < 60 * m + 60)%Z /\
       formatTimestamp now date localeDate = pretty m +:+ "m") /\
  ((3600 <= seconds < 86400)%Z ->
     exists h, (1 <= h < 24)%Z /\ (3600 * h <= seconds < 3600 * h + 3600)%Z /\
       formatTimestamp now date localeDate = pretty h +:+ "h") /\
  ((86400 <= seconds < 604800)%Z ->
     exists d, (1 <= d < 7)%Z /\ (86400 * d <= seconds < 86400 * d + 86400)%Z /\
       formatTimestamp now date localeDate = pretty d +:+ "d") /\
  ((604800 <= seconds)%Z -> formatTimestamp now date localeDate = localeDate).
Proof.
  intros seconds. unfold formatTimestamp. fold seconds.
  assert (Hdiv : forall k, (0 < k)%Z ->
            (k * (seconds `div` k) <= seconds < k * (seconds `div` k) + k)%Z).
  { intros k Hk. pose proof (Z.mod_pos_bound seconds k Hk).
    pose proof (Z.div_mod seconds k). lia. }
  split_and!.
  - intros H. by rewrite bool_decide_eq_true_2.
  - intros H. rewrite bool_decide_eq_false_2, bool_decide_eq_true_2 by lia.
    exists (seconds `div` 60)%Z. pose proof (Hdiv 60%Z). split_and!; [lia.. | done].
  - intros H. rewrite !bool_decide_eq_false_2, bool_decide_eq_true_2 by lia.
    exists (seconds `div` 3600)%Z. pose proof (Hdiv 3600%Z). split_and!; [lia.. | done].
  - intros H. rewrite !bool_decide_eq_false_2, bool_decide_eq_true_2 by lia.
    exists (seconds `div` 86400)%Z. pose proof (Hdiv 86400%Z). split_and!; [lia.. | done].
  - intros H. by rewrite !bool_decide_eq_false_2 by lia.
Qed.

(** ** The message list of the chat page *)

Import ChatPage.



